(** * The query compiler of gatsby: [Runner.write]

    A shallow embedding of [packages/gatsby/src/query/query-compiler.js].
    [Runner.write] receives the parsed documents of all component files
    and returns one compiled query per file, reporting diagnostics through
    [addError].  The embedding follows the method statement by statement:

    - the merge loop over [nodes.entries()] (structural validation, the
      fragment de-duplication filter, the name indices),
    - the validation of the merged document,
    - the loop over [operationDefinitions] (duplicate-root check, fragment
      resolution with an explicit stack, construction of the query).

    JavaScript [Map]s and [Set]s whose iteration order is observed
    ([nodes], [fragmentMap], [compiledNodes], [usedFragments]) are
    insertion-ordered lists; the maps that are only read with [get]
    ([namePathMap], [nameDefMap], [usedFragmentsForFragment]) are finite
    maps.  Functions imported from libraries ([print], [validate],
    [_.kebabCase], [path.relative]) and from modules of the repository
    that are not part of this file ([graphqlError]) are fields of the
    class [Externals]; [levenshtein.get] and [Array.prototype.sort], on
    which the suggestion for a misspelt fragment depends, are written out.

    Left out, because nothing below observes them: the notifications to
    the redux store ([actions.queryExtractionGraphQLError]), the map
    [nameErrorMap], which is written and never read, the source locations
    inside the diagnostics, and the message to the reporter about React
    hooks. *)

From Stdlib Require Import String Ascii List ZArith Lia Bool.
From stdpp Require Import gmap strings list.

Local Open Scope string_scope.
Local Open Scope list_scope.
Local Open Scope nat_scope.

(** ** Documents *)

Inductive Kind := OPERATION_DEFINITION | FRAGMENT_DEFINITION.

#[global] Instance Kind_eq_dec : EqDecision Kind.
Proof. solve_decision. Defined.

(** A selection set, as far as [visit] with a [FragmentSpread] visitor can
    tell its nodes apart. *)
#[warnings="-register-all"]
Inductive selection :=
| Field (fieldName : string) (selectionSet : list selection)
| FragmentSpread (spreadName : string)
| InlineFragment (selectionSet : list selection).

Module Def.
(** A definition node with the properties the file parser attaches to it
    ([text], [hash], [isHook], [isStaticQuery]). *)
Record t := mk {
  kind : Kind;
  name : string;                      (* def.name.value *)
  selectionSet : list selection;
  text : string;
  hash : string;
  isHook : bool;
  isStaticQuery : bool;
}.
End Def.

Module Query.
Record t := mk {
  name : string;
  text : string;
  originalText : string;
  path : string;
  isHook : bool;
  isStaticQuery : bool;
  hash : string;
  id : option string;
}.
End Query.

(** The names handed to the [FragmentSpread] visitor, in the order in which
    [visit] walks the tree (depth first, left to right). *)
Fixpoint spreads_of_selection (s : selection) : list string :=
  match s with
  | Field _ ss => flat_map spreads_of_selection ss
  | FragmentSpread n => [n]
  | InlineFragment ss => flat_map spreads_of_selection ss
  end.

Definition spreads (d : Def.t) : list string :=
  flat_map spreads_of_selection (Def.selectionSet d).

(** ** Insertion-ordered maps and sets *)

Module JSMap.
Definition t (V : Type) := list (string * V).

Fixpoint get {V} (k : string) (m : t V) : option V :=
  match m with
  | [] => None
  | (k', v) :: r => if String.eqb k k' then Some v else get k r
  end.

Definition has {V} (k : string) (m : t V) : bool :=
  match get k m with Some _ => true | None => false end.

(** [set] keeps the position of a key that is already present. *)
Fixpoint set {V} (k : string) (v : V) (m : t V) : t V :=
  match m with
  | [] => [(k, v)]
  | (k', v') :: r =>
      if String.eqb k k' then (k, v) :: r else (k', v') :: set k v r
  end.

Definition keys {V} (m : t V) : list string := map fst m.
Definition values {V} (m : t V) : list V := map snd m.
End JSMap.

Module JSSet.
Definition t := list string.

Definition has (x : string) (s : t) : bool :=
  existsb (String.eqb x) s.

Definition add (x : string) (s : t) : t :=
  if has x s then s else s ++ [x].
End JSSet.

(** ** Results of a run of the embedded code *)

(** [write] returns, or is still inside the [while] over the stack after
    the number of iterations it was given (the loop has no bound of its
    own), or reads a property of [undefined]. *)
Inductive outcome (A : Type) :=
| Returns (a : A)
| Unfinished
| Throws.
Arguments Returns {A} a.
Arguments Unfinished {A}.
Arguments Throws {A}.

Definition bind {A B} (m : outcome A) (k : A -> outcome B) : outcome B :=
  match m with
  | Returns a => k a
  | Unfinished => Unfinished
  | Throws => Throws
  end.

Notation "'let*' x ':=' m 'in' k" := (bind m (fun x => k))
  (at level 10, x pattern, m at level 100, k at level 200).

(** [o.field] on the result of a [Map.get]. *)
Definition deref {A} (o : option A) : outcome A :=
  match o with Some a => Returns a | None => Throws end.

(** ** Library functions *)

Class Externals := {
  (** [print] of graphql, on one definition *)
  print : Def.t -> string;
  (** [validate (schema, doc, preValidationRules)], as messages *)
  validate_pre : list Def.t -> list string;
  (** the errors [validate (schema, doc, mainValidationRules)] reports for
      the fifteen rules other than [UniqueFragmentNamesRule] *)
  validate_main_rest : list Def.t -> list string;
  (** [docName] of [graphqlError (namePathMap, nameDefMap, error)] *)
  docName : gmap string string -> gmap string Def.t -> string -> string;
  (** [_.kebabCase] of lodash *)
  kebabCase : string -> string;
  (** [path.relative] *)
  path_relative : string -> string -> string;
  (** [store.getState ().program.directory] *)
  program_directory : string;
}.

Definition newline : string := String (ascii_of_nat 10) EmptyString.

(** ** Edit distance ([fast-levenshtein], [get] without collator) *)

Module levenshtein.
(** One pass of the inner loop over [j]: [prevRow] is consumed from
    index [j], [prevJ] is [prevRow[j]], [nextCol] the column computed
    last; the rewritten row is returned with the last column. *)
Fixpoint row (c : ascii) (str2 : list ascii) (prevJ : nat)
    (prevRest : list nat) (nextCol : nat) : list nat * nat :=
  match str2, prevRest with
  | c2 :: str2', prevJ1 :: prevRest' =>
      let curCol := nextCol in
      let subst := prevJ + (if Ascii.eqb c c2 then 0 else 1) in
      let nextCol := Nat.min (Nat.min subst (curCol + 1)) (prevJ1 + 1) in
      let '(r, last) := row c str2' prevJ1 prevRest' nextCol in
      (curCol :: r, last)
  | _, _ => ([nextCol], nextCol)
  end.

Fixpoint rows (str1 : list ascii) (i : nat) (str2 : list ascii)
    (prevRow : list nat) (nextCol : nat) : nat :=
  match str1 with
  | [] => nextCol
  | c :: str1' =>
      match prevRow with
      | [] => nextCol
      | p0 :: prest =>
          let '(r, last) := row c str2 p0 prest (i + 1) in
          rows str1' (i + 1) str2 r last
      end
  end.

Definition get (str1 str2 : string) : nat :=
  let s1 := list_ascii_of_string str1 in
  let s2 := list_ascii_of_string str2 in
  match s1, s2 with
  | [], _ => List.length s2
  | _, [] => List.length s1
  | _, _ => rows s1 0 s2 (seq 0 (S (List.length s2))) 0
  end.
End levenshtein.

(** ** [Array.prototype.sort] *)

(** The sort of V8 since version 7.0 (Node 11), [third_party/v8/builtins/
    array-sort.tq]: [CountAndMakeRun] takes the longest run at the start of
    the array and reverses it when it is strictly descending; the elements
    after the run are put in place by [BinaryInsertionSort].  (Arrays of 64
    elements and more are cut into several such runs that are merged; the
    first run is found in the same way.) *)
Module Array.
Section sort.
Context {A : Type} (comparefn : A -> A -> Z).

Fixpoint run_length (isDescending : bool) (previous : A) (rest : list A)
    : nat :=
  match rest with
  | [] => 0
  | current :: rest' =>
      let order := comparefn current previous in
      let stop :=
        if isDescending then (0 <=? order)%Z else (order <? 0)%Z in
      if stop then 0 else S (run_length isDescending current rest')
  end.

Definition count_and_make_run (a : list A) : list A * list A :=
  match a with
  | low :: high :: rest =>
      let isDescending := (comparefn high low <? 0)%Z in
      let runLength := 2 + run_length isDescending high rest in
      let run := firstn runLength a in
      (if isDescending then rev run else run, skipn runLength a)
  | _ => (a, [])
  end.

Fixpoint insertion_point (steps : nat) (sorted : list A) (pivot : A)
    (left right : nat) : nat :=
  match steps with
  | 0 => left
  | S steps' =>
      if (left <? right)%nat then
        let mid := left + (right - left) / 2 in
        match nth_error sorted mid with
        | Some x =>
            if (comparefn pivot x <? 0)%Z
            then insertion_point steps' sorted pivot left mid
            else insertion_point steps' sorted pivot (mid + 1) right
        | None => left
        end
      else left
  end.

Definition binary_insert (sorted : list A) (pivot : A) : list A :=
  let n := List.length sorted in
  let left := insertion_point (S n) sorted pivot 0 n in
  firstn left sorted ++ pivot :: skipn left sorted.

Definition sort (a : list A) : list A :=
  let '(run, rest) := count_and_make_run a in
  fold_left binary_insert rest run.
End sort.
End Array.

(** ** Diagnostics *)

Inductive GraphQLError :=
| DuplicateFragmentName (fragmentName : string)  (* UniqueFragmentNamesRule *)
| RuleError (message : string).                 (* any other rule *)

(** What [addError] receives: the two uses of [errorParser], the result of
    [multipleRootQueriesError], and the object with id 85908. *)
Inductive Diagnostic :=
| StructuralError (filePath : string) (message : string)
| GlobalError (filePath : option string) (error : GraphQLError)
| MultipleRootQueriesError (filePath : string)
    (def otherDef : option Def.t)
| Error85908 (filePath : string) (fragmentName : string)
    (closestFragment : option string).

Module Entry.
(** A value of [fragmentMap]: [{ def, text }]. *)
Record t := mk { def : Def.t; text : string }.
End Entry.

(** The maps and the list filled by the first loop of [write]. *)
Record Indices := mkIndices {
  namePathMap : gmap string string;
  nameDefMap : gmap string Def.t;
  operationDefinitions : list Def.t;
  fragmentMap : JSMap.t Entry.t;
}.

Definition no_indices : Indices :=
  {| namePathMap := ∅; nameDefMap := ∅;
     operationDefinitions := []; fragmentMap := [] |}.

(** The state of the loop over [operationDefinitions]. *)
Record Run := mkRun {
  compiledNodes : JSMap.t Query.t;
  errors : list Diagnostic;
  usedFragmentsForFragment : gmap string (list string);
}.

Module Candidate.
Record t := mk { fragment : string; score : nat }.
End Candidate.

Definition closestFragment (fragmentNames : list string) (name : string)
    : option string :=
  let scored :=
    map (fun f => Candidate.mk f (levenshtein.get name f)) fragmentNames in
  let near := List.filter (fun f => (Candidate.score f <? 10)%nat) scored in
  let sorted :=
    Array.sort
      (fun a b => Z.b2z (Candidate.score b <? Candidate.score a)%nat) near in
  option_map Candidate.fragment (head sorted).

Section write.
Context `{Externals}.

(** [print] on a document node joins the printed definitions with an
    empty line and ends with a line break. *)
Definition print_document (definitions : list Def.t) : string :=
  String.concat (newline +:+ newline) (map print definitions) +:+ newline.

(** *** The merge loop *)

(** The callback of [doc.definitions.filter]. *)
Definition keep_definition (fm : JSMap.t Entry.t) (definition : Def.t)
    : bool * JSMap.t Entry.t :=
  match Def.kind definition with
  | FRAGMENT_DEFINITION =>
      let fragmentName := Def.name definition in
      match JSMap.get fragmentName fm with
      | Some entry =>
          if String.eqb (print definition) (Entry.text entry)
          then (false, fm)
          else (true, fm)
      | None =>
          (true,
           JSMap.set fragmentName
             (Entry.mk definition (print definition)) fm)
      end
  | OPERATION_DEFINITION => (true, fm)
  end.

Fixpoint filter_definitions (fm : JSMap.t Entry.t)
    (definitions : list Def.t) : list Def.t * JSMap.t Entry.t :=
  match definitions with
  | [] => ([], fm)
  | definition :: rest =>
      let '(keep, fm1) := keep_definition fm definition in
      let '(kept, fm2) := filter_definitions fm1 rest in
      (if keep then definition :: kept else kept, fm2)
  end.

(** The callback of [doc.definitions.forEach]. *)
Definition index_definition (filePath : string) (ix : Indices)
    (def : Def.t) : Indices :=
  {| namePathMap := <[Def.name def := filePath]> (namePathMap ix);
     nameDefMap := <[Def.name def := def]> (nameDefMap ix);
     operationDefinitions :=
       match Def.kind def with
       | OPERATION_DEFINITION => operationDefinitions ix ++ [def]
       | FRAGMENT_DEFINITION => operationDefinitions ix
       end;
     fragmentMap := fragmentMap ix |}.

Definition with_fragmentMap (ix : Indices) (fm : JSMap.t Entry.t)
    : Indices :=
  {| namePathMap := namePathMap ix; nameDefMap := nameDefMap ix;
     operationDefinitions := operationDefinitions ix;
     fragmentMap := fm |}.

(** One file that passed the structural rules. *)
Definition merge_file (ix : Indices) (filePath : string)
    (doc : list Def.t) : Indices :=
  let '(definitions, fm) := filter_definitions (fragmentMap ix) doc in
  fold_left (index_definition filePath) definitions
    (with_fragmentMap ix fm).

(** The first loop ends at the end of [nodes], or with the [return] in
    the file whose document breaks a structural rule. *)
Inductive merged :=
| Merged (ix : Indices)
| Abandoned (ix : Indices) (reported : list Diagnostic).

Fixpoint merge_files (ix : Indices) (nodes : list (string * list Def.t))
    : merged :=
  match nodes with
  | [] => Merged ix
  | (filePath, doc) :: rest =>
      match validate_pre doc with
      | [] => merge_files (merge_file ix filePath doc) rest
      | errs => Abandoned ix (map (StructuralError filePath) errs)
      end
  end.

(** *** Validation of the merged document *)

(** [UniqueFragmentNamesRule] of graphql: a fragment definition whose
    name was met before is reported. *)
Fixpoint UniqueFragmentNamesRule (knownFragmentNames : list string)
    (definitions : list Def.t) : list GraphQLError :=
  match definitions with
  | [] => []
  | d :: rest =>
      match Def.kind d with
      | OPERATION_DEFINITION =>
          UniqueFragmentNamesRule knownFragmentNames rest
      | FRAGMENT_DEFINITION =>
          if JSSet.has (Def.name d) knownFragmentNames
          then DuplicateFragmentName (Def.name d)
                 :: UniqueFragmentNamesRule knownFragmentNames rest
          else UniqueFragmentNamesRule
                 (Def.name d :: knownFragmentNames) rest
      end
  end.

Definition globalDoc (ix : Indices) : list Def.t :=
  operationDefinitions ix
    ++ map Entry.def (JSMap.values (fragmentMap ix)).

(** [validate (schema, globalDoc, mainValidationRules)]; how the reports
    of the different rules interleave is not observed below. *)
Definition validate_main (definitions : list Def.t) : list GraphQLError :=
  UniqueFragmentNamesRule [] definitions
    ++ map RuleError (validate_main_rest definitions).

Definition message_of (e : GraphQLError) : string :=
  match e with
  | DuplicateFragmentName n =>
      "There can be only one fragment named " +:+ n
  | RuleError m => m
  end.

Definition global_errors (ix : Indices) : list Diagnostic :=
  map (fun error =>
         let name :=
           docName (namePathMap ix) (nameDefMap ix) (message_of error) in
         GlobalError (namePathMap ix !! name) error)
      (validate_main (globalDoc ix)).

(** *** Fragment resolution *)

Section resolution.
Variable ix : Indices.
Variable cache : gmap string (list string).
Variable filePath : string.

Definition fragmentNames : list string := JSMap.keys (fragmentMap ix).

(** The [FragmentSpread] visitor.  The stack is a list whose head is
    the last element of the JavaScript array. *)
Definition on_spread
    (acc : list Def.t * JSSet.t * list Diagnostic) (name : string)
    : list Def.t * JSSet.t * list Diagnostic :=
  let '(stack, usedFragments, errs) := acc in
  match cache !! name with
  | Some derived =>
      (stack,
       JSSet.add name
         (fold_left (fun used derivedFragmentName =>
                       JSSet.add derivedFragmentName used)
                    derived usedFragments),
       errs)
  | None =>
      match JSMap.get name (fragmentMap ix) with
      | Some entry =>
          (Entry.def entry :: stack, JSSet.add name usedFragments, errs)
      | None =>
          (stack, usedFragments,
           errs ++ [Error85908 filePath name
                      (closestFragment fragmentNames name)])
      end
  end.

(** [while (stack.length > 0)], at most [fuel] iterations. *)
Fixpoint resolve (fuel : nat) (stack : list Def.t)
    (usedFragments : JSSet.t) (errs : list Diagnostic) {struct fuel}
    : outcome (JSSet.t * list Diagnostic) :=
  match stack with
  | [] => Returns (usedFragments, errs)
  | def :: stack' =>
      match fuel with
      | 0 => Unfinished
      | S fuel' =>
          let '(stack1, used1, errs1) :=
            fold_left on_spread (spreads def)
              (stack', usedFragments, errs) in
          resolve fuel' stack1 used1 errs1
      end
  end.
End resolution.

(** [Array.from (usedFragments.values ()).map (name =>
    fragmentMap.get (name).def)] *)
Fixpoint fragment_defs (fm : JSMap.t Entry.t) (names : list string)
    : outcome (list Def.t) :=
  match names with
  | [] => Returns []
  | n :: rest =>
      let* entry := deref (JSMap.get n fm) in
      let* defs := fragment_defs fm rest in
      Returns (Entry.def entry :: defs)
  end.

(** *** The loop over the operations *)

Definition static_query_id (filePath : string) : string :=
  "sq--" +:+ kebabCase (path_relative program_directory filePath).

(** The object literal [query], with [query.id] for a static query. *)
Definition make_query (name filePath : string) (document : list Def.t)
    (d : Def.t) : Query.t :=
  {| Query.name := name;
     Query.text := print_document document;
     Query.originalText := Def.text d;
     Query.path := filePath;
     Query.isHook := Def.isHook d;
     Query.isStaticQuery := Def.isStaticQuery d;
     Query.hash := Def.hash d;
     Query.id :=
       if Def.isStaticQuery d
       then Some (static_query_id filePath) else None |}.

Definition add_error (run : Run) (e : Diagnostic) : Run :=
  {| compiledNodes := compiledNodes run;
     errors := errors run ++ [e];
     usedFragmentsForFragment := usedFragmentsForFragment run |}.

(** One iteration of [for (const operation of operationDefinitions)].
    The check of [query.isHook] against the React runtime only talks to
    the reporter and is left out. *)
Definition compile_operation (fuel : nat) (ix : Indices) (run : Run)
    (operation : Def.t) : outcome Run :=
  let name := Def.name operation in
  let filePath := default "" (namePathMap ix !! name) in
  match JSMap.get filePath (compiledNodes run) with
  | Some otherNode =>
      Returns
        (add_error run
           (MultipleRootQueriesError filePath
              (nameDefMap ix !! name)
              (nameDefMap ix !! Query.name otherNode)))
  | None =>
      let* (usedFragments, errs) :=
        resolve ix (usedFragmentsForFragment run) filePath fuel
          [operation] [] (errors run) in
      let* defs := fragment_defs (fragmentMap ix) usedFragments in
      let document := defs ++ [operation] in
      let* d := deref (nameDefMap ix !! name) in
      let query := make_query name filePath document d in
      Returns
        {| compiledNodes := JSMap.set filePath query (compiledNodes run);
           errors := errs;
           usedFragmentsForFragment := usedFragmentsForFragment run |}
  end.

Fixpoint compile_operations (fuel : nat) (ix : Indices) (run : Run)
    (operations : list Def.t) : outcome Run :=
  match operations with
  | [] => Returns run
  | operation :: rest =>
      let* run1 := compile_operation fuel ix run operation in
      compile_operations fuel ix run1 rest
  end.

(** *** [write] *)

Definition write_run (fuel : nat) (nodes : list (string * list Def.t))
    : outcome Run :=
  match merge_files no_indices nodes with
  | Abandoned _ reported =>
      Returns {| compiledNodes := []; errors := reported;
                 usedFragmentsForFragment := ∅ |}
  | Merged ix =>
      compile_operations fuel ix
        {| compiledNodes := []; errors := global_errors ix;
           usedFragmentsForFragment := ∅ |}
        (operationDefinitions ix)
  end.

(** The returned map, and what [addError] has received. *)
Definition write (fuel : nat) (nodes : list (string * list Def.t))
    : outcome (JSMap.t Query.t * list Diagnostic) :=
  let* run := write_run fuel nodes in
  Returns (compiledNodes run, errors run).
End write.

(** ** A sample environment

    Concrete library functions for the examples below: a printer of the
    selection sets above, a structural rule that rejects the field
    [__broken], no other diagnostics, and ids for paths under [/site]. *)
Module Sample.
Fixpoint print_selection (s : selection) : string :=
  match s with
  | Field n [] => n
  | Field n ss =>
      n +:+ " { " +:+ String.concat " " (map print_selection ss) +:+ " }"
  | FragmentSpread n => "..." +:+ n
  | InlineFragment ss =>
      "... { " +:+ String.concat " " (map print_selection ss) +:+ " }"
  end.

Definition print_def (d : Def.t) : string :=
  (match Def.kind d with
   | OPERATION_DEFINITION => "query "
   | FRAGMENT_DEFINITION => "fragment "
   end)
  +:+ Def.name d +:+ " { "
  +:+ String.concat " " (map print_selection (Def.selectionSet d))
  +:+ " }".

Definition is_broken (s : selection) : bool :=
  match s with
  | Field n _ => String.eqb n "__broken"
  | _ => false
  end.

Definition reject_broken (doc : list Def.t) : list string :=
  flat_map
    (fun d =>
       if existsb is_broken (Def.selectionSet d)
       then ["Cannot query field __broken"] else [])
    doc.

Definition kebab_char (c : ascii) : ascii :=
  if (Ascii.eqb c "/" || Ascii.eqb c ".")%bool then "-"%char else c.

Definition kebab (s : string) : string :=
  string_of_list_ascii (map kebab_char (list_ascii_of_string s)).

Definition relative (from to : string) : string :=
  if String.prefix (from +:+ "/") to
  then String.substring (S (String.length from))
         (String.length to - S (String.length from)) to
  else to.

#[export] Instance externals : Externals :=
  {| print := print_def;
     validate_pre := reject_broken;
     validate_main_rest := fun _ => [];
     docName := fun _ _ _ => "";
     kebabCase := kebab;
     path_relative := relative;
     program_directory := "/site" |}.

Definition operation (name : string) (sels : list selection)
    (text : string) : Def.t :=
  {| Def.kind := OPERATION_DEFINITION; Def.name := name;
     Def.selectionSet := sels; Def.text := text;
     Def.hash := "h-" +:+ name; Def.isHook := false;
     Def.isStaticQuery := false |}.

Definition fragment (name : string) (sels : list selection) : Def.t :=
  {| Def.kind := FRAGMENT_DEFINITION; Def.name := name;
     Def.selectionSet := sels; Def.text := "";
     Def.hash := ""; Def.isHook := false; Def.isStaticQuery := false |}.
End Sample.

(** ** Auxiliary notions for the statements *)

Section notions.
Context `{Externals}.

(** The indices after the files of [nodes], when none of them is
    rejected. *)
Definition merge_all (ix : Indices) (nodes : list (string * list Def.t))
    : Indices :=
  fold_left (fun ix n => merge_file ix n.1 n.2) nodes ix.

Definition all_valid (nodes : list (string * list Def.t)) : Prop :=
  Forall (fun n => validate_pre n.2 = []) nodes.

(** Every entry of the returned map is filed under its own [path] and
    carries the id of that path when it is a static query. *)
Definition entry_ok (filePath : string) (q : Query.t) : Prop :=
  Query.path q = filePath
  ∧ Query.id q =
      if Query.isStaticQuery q then Some (static_query_id filePath) else None.

(** What the merge loop keeps true of [fragmentMap]: one entry per name,
    filed under the name of its fragment definition, with its printed
    text. *)
Definition registry_ok (fm : JSMap.t Entry.t) : Prop :=
  NoDup (JSMap.keys fm)
  ∧ Forall (λ p, Def.name (Entry.def p.2) = p.1
                 ∧ Def.kind (Entry.def p.2) = FRAGMENT_DEFINITION
                 ∧ Entry.text p.2 = print (Entry.def p.2)) fm.

(** The definitions that reach [forEach], with their files, in order. *)
Fixpoint indexed (fm : JSMap.t Entry.t) (nodes : list (string * list Def.t))
    : list (string * Def.t) :=
  match nodes with
  | [] => []
  | (filePath, doc) :: rest =>
      let '(definitions, fm1) := filter_definitions fm doc in
      map (pair filePath) definitions ++ indexed fm1 rest
  end.

(** The last of them with a given name. *)
Definition last_named (name : string) (l : list (string * Def.t))
    : option (string * Def.t) :=
  find (λ p, String.eqb (Def.name p.2) name) (rev l).

Definition is_operation (d : Def.t) : bool :=
  bool_decide (Def.kind d = OPERATION_DEFINITION).

(** The definitions of a batch, each with its file. *)
Definition tagged (nodes : list (string * list Def.t))
    : list (string * Def.t) :=
  flat_map (λ n, map (pair n.1) n.2) nodes.

(** No definition of the batch, in any file, bears the name of an
    operation of the batch. *)
Definition operation_names_unique (nodes : list (string * list Def.t))
    : Prop :=
  ∀ p q,
    In p (tagged nodes) → In q (tagged nodes) →
    Def.kind p.2 = OPERATION_DEFINITION →
    Def.name q.2 = Def.name p.2 →
    q = p.

(** Two definitions that a batch may hold in either order: the same
    definition, or two fragment definitions named [n0] with one printed
    text and the same spreads. *)
Definition twin (n0 : string) (d d' : Def.t) : Prop :=
  d = d'
  ∨ (Def.kind d = FRAGMENT_DEFINITION ∧ Def.kind d' = FRAGMENT_DEFINITION
     ∧ Def.name d = n0 ∧ Def.name d' = n0
     ∧ print d = print d' ∧ spreads d = spreads d').


Definition twin_registry (n0 : string) (fm fm' : JSMap.t Entry.t) : Prop :=
  Forall2 (λ p p', p.1 = p'.1 ∧ Entry.text p.2 = Entry.text p'.2
                   ∧ twin n0 (Entry.def p.2) (Entry.def p'.2)) fm fm'.


Definition twin_runs (run run' : Run) : Prop :=
  compiledNodes run = compiledNodes run'
  ∧ usedFragmentsForFragment run = usedFragmentsForFragment run'.

(** Outcomes of the same kind with related results. *)
Definition outcome_rel {A B} (R : A → B → Prop)
    (o : outcome A) (o' : outcome B) : Prop :=
  match o, o' with
  | Returns a, Returns b => R a b
  | Unfinished, Unfinished => True
  | Throws, Throws => True
  | _, _ => False
  end.

Definition outcome_map {A B} (f : A → B) (o : outcome A) : outcome B :=
  match o with
  | Returns a => Returns (f a)
  | Unfinished => Unfinished
  | Throws => Throws
  end.

(** The duplicate-root diagnostics of one file. *)
Definition duplicate_root_of (filePath : string) (e : Diagnostic) : bool :=
  match e with
  | MultipleRootQueriesError p _ _ => String.eqb p filePath
  | _ => false
  end.

(** *** One visit, component by component *)

Section visit.
Variable ix : Indices.
Variable cache : gmap string (list string).
Variable filePath : string.

(** What the visitor pushes, adds and reports for one spread. *)
Definition pushed_by (name : string) : list Def.t :=
  match cache !! name with
  | Some _ => []
  | None =>
      match JSMap.get name (fragmentMap ix) with
      | Some entry => [Entry.def entry]
      | None => []
      end
  end.

Definition use (usedFragments : JSSet.t) (name : string) : JSSet.t :=
  match cache !! name with
  | Some derived =>
      JSSet.add name (fold_left (λ used d, JSSet.add d used)
                        derived usedFragments)
  | None =>
      match JSMap.get name (fragmentMap ix) with
      | Some _ => JSSet.add name usedFragments
      | None => usedFragments
      end
  end.

Definition reported_by (name : string) : list Diagnostic :=
  match cache !! name with
  | Some _ => []
  | None =>
      match JSMap.get name (fragmentMap ix) with
      | Some _ => []
      | None =>
          [Error85908 filePath name
             (closestFragment (fragmentNames ix) name)]
      end
  end.

(** The stack on which the loop comes to an end. *)
Inductive halts : list Def.t → Prop :=
| halts_nil : halts []
| halts_cons def stack :
    halts (rev (flat_map pushed_by (spreads def)) ++ stack) →
    halts (def :: stack).

(** No registered fragment reaches itself through spreads that are
    followed: [rank] decreases along them. *)
Definition acyclic (rank : string → nat) : Prop :=
  ∀ n entry s,
    JSMap.get n (fragmentMap ix) = Some entry →
    In s (spreads (Entry.def entry)) →
    cache !! s = None →
    is_Some (JSMap.get s (fragmentMap ix)) →
    rank s < rank n.

(** The cache only knows registered names. *)
Definition cache_registered : Prop :=
  ∀ k derived,
    cache !! k = Some derived →
    is_Some (JSMap.get k (fragmentMap ix))
    ∧ ∀ x, In x derived → is_Some (JSMap.get x (fragmentMap ix)).
End visit.
End notions.

(** ** Sample inputs *)

Module Inputs.
Import Sample.

Definition site_a := "/site/src/a.js".
Definition site_b := "/site/src/b.js".
Definition site_c := "/site/src/c.js".

Definition F_a := fragment "F" [Field "a" []].
Definition F_b := fragment "F" [Field "b" []].
Definition Q_F := operation "Q" [Field "x" [FragmentSpread "F"]] "Q".
Definition Q_broken := operation "Bad" [Field "__broken" []] "Bad".
Definition Q_plain := operation "Plain" [Field "y" []] "Plain".

Definition Q_static : Def.t :=
  {| Def.kind := OPERATION_DEFINITION; Def.name := "Static";
     Def.selectionSet := [Field "site" []]; Def.text := "Static";
     Def.hash := "h-Static"; Def.isHook := true;
     Def.isStaticQuery := true |}.

Definition compiled_static : Query.t :=
  {| Query.name := "Static";
     Query.text := "query Static { site }" +:+ newline;
     Query.originalText := "Static";
     Query.path := site_a;
     Query.isHook := true;
     Query.isStaticQuery := true;
     Query.hash := "h-Static";
     Query.id := Some "sq--src-a-js" |}.

(** Two fragments at distance 5 and 1 from the misspelt [UserField]. *)
Definition PostFields := fragment "PostFields" [Field "title" []].
Definition UserFields := fragment "UserFields" [Field "name" []].
Definition Q_typo :=
  operation "Typo" [Field "user" [FragmentSpread "UserField"]] "Typo".
Definition typo_batch : list (string * list Def.t) :=
  [(site_a, [PostFields; UserFields; Q_typo])].

(** A fragment [B] that spreads [A], used by two pages. *)
Definition A := fragment "A" [Field "a" []].
Definition B := fragment "B" [Field "b" []; FragmentSpread "A"].
Definition Page1 := operation "Page1" [FragmentSpread "B"] "Page1".
Definition Page2 := operation "Page2" [FragmentSpread "B"] "Page2".
Definition shared_batch : list (string * list Def.t) :=
  [(site_a, [A; B; Page1]); (site_b, [Page2])].

(** A page that uses [B] and misspells a third fragment. *)
Definition Q_mixed :=
  operation "Mixed"
    [FragmentSpread "B"; Field "u" [FragmentSpread "Missing"]] "Mixed".
Definition mixed_batch : list (string * list Def.t) :=
  [(site_a, [A; B; Q_mixed])].
Definition rank_B_above_A (n : string) : nat :=
  if String.eqb n "B" then 1 else 0.

(** The same fragment name with two texts. *)
Definition conflict_batch : list (string * list Def.t) :=
  [(site_a, [F_a]); (site_b, [F_b; Q_F])].

(** Two operations in one file, the second with an unknown spread. *)
Definition Q1 := operation "Q1" [Field "x" []] "Q1 of a".
Definition Q2 :=
  operation "Q2" [Field "y" [FragmentSpread "Missing"]] "Q2 of a".
Definition two_roots_batch : list (string * list Def.t) :=
  [(site_a, [Q1; Q2])].

(** The same file between two pages that share fragments. *)
Definition three_files_batch : list (string * list Def.t) :=
  [(site_b, [A; B; Page1]); (site_a, [Q1; Q2]); (site_c, [Page2])].

(** ... and a second file with an operation named as the first. *)
Definition Q1' := operation "Q1" [Field "z" []] "Q1 of b".
Definition shadowed_batch : list (string * list Def.t) :=
  [(site_a, [Q1; Q_plain]); (site_b, [Q1'])].

(** [F_b] again, from a differently written template. *)
Definition F_b' : Def.t :=
  {| Def.kind := FRAGMENT_DEFINITION; Def.name := "F";
     Def.selectionSet := [Field "b" []]; Def.text := "fragment F{b}";
     Def.hash := "h-F"; Def.isHook := false; Def.isStaticQuery := false |}.

Definition thrice_batch : list (string * list Def.t) :=
  [(site_a, [F_a]); (site_b, [F_b]); (site_c, [F_b'])].

Definition compiled_Q_F : Query.t :=
  {| Query.name := "Q";
     Query.text :=
       "fragment F { a }" +:+ newline +:+ newline
         +:+ "query Q { x { ...F } }" +:+ newline;
     Query.originalText := "Q";
     Query.path := site_b;
     Query.isHook := false;
     Query.isStaticQuery := false;
     Query.hash := "h-Q";
     Query.id := None |}.

Definition compiled_page (name path : string) : Query.t :=
  {| Query.name := name;
     Query.text :=
       "fragment B { b ...A }" +:+ newline +:+ newline
         +:+ "fragment A { a }" +:+ newline +:+ newline
         +:+ "query " +:+ name +:+ " { ...B }" +:+ newline;
     Query.originalText := name;
     Query.path := path;
     Query.isHook := false;
     Query.isStaticQuery := false;
     Query.hash := "h-" +:+ name;
     Query.id := None |}.
End Inputs.

(** ** Further notions *)

(** [d.match (/\.d\.ts$/)] *)
Definition ends_with_d_ts (d : string) : bool :=
  let n := String.length d in
  (5 <=? n) && String.eqb (String.substring (n - 5) 5 d) ".d.ts".

Module lodash.
(** [_.uniq]: the first occurrence of every value, in order. *)
Definition uniq (array : list string) : list string :=
  fold_left (λ result value, JSSet.add value result) array [].
End lodash.

Module Theme.
Record t := mk { themeDir : string }.
End Theme.

(** [themes.reduce ((merged, theme) => { merged.push (theme.themeDir);
    return merged }, [])], with the default [themes = []]. *)
Definition resolveThemes (themes : option (list Theme.t)) : list string :=
  fold_left (λ merged theme, merged ++ [Theme.themeDir theme])
    (default [] themes) [].

(** *** The files handed to the parser ([Runner.parseEverything]) *)

Class Host := {
  (** [path.join] *)
  path_join : list string -> string;
  (** [glob.sync (pattern, { nodir: true })] *)
  glob_sync : string -> list string;
  (** [normalize-path] *)
  normalize : string -> string;
  (** [module.path] of every module of [getGatsbyDependents ()] *)
  modulesThatUseGatsby : list string;
  (** [store.getState ().components.keys ()] *)
  components : list string;
}.

Module Runner.
Record t := mk { base : string; additional : list string }.
End Runner.

Definition filesRegex : string := "*.+(t|j)s?(x)".

Definition pathRegex : string :=
  "/{" +:+ filesRegex +:+ ",!(node_modules)/**/" +:+ filesRegex +:+ "}".

Section files.
Context `{Host}.

(** The folders that are searched. *)
Definition folders (this : Runner.t) : list string :=
  [path_join [Runner.base this; "src"];
   path_join [Runner.base this; ".cache"; "fragments"]]
    ++ map (λ additional, path_join [additional; "src"])
         (Runner.additional this)
    ++ modulesThatUseGatsby.

(** The value of [files] when [parser.parseFiles] is called. *)
Definition parseEverything_files (this : Runner.t) : list string :=
  let files :=
    fold_left
      (λ merged folderPath,
         merged ++ glob_sync (path_join [folderPath; pathRegex]))
      (folders this) [] in
  let files := List.filter (λ d, negb (ends_with_d_ts d)) files in
  let files := map normalize files in
  let files := files ++ map normalize components in
  lodash.uniq files.
End files.

(** *** The runner that [compile] builds *)

Module Plugin.
Record t := mk { pluginFilepath : string }.
End Plugin.

(** [new Runner (program.directory, resolveThemes (themes.themes ?
    themes.themes : flattenedPlugins.map (plugin => ({ themeDir:
    plugin.pluginFilepath }))), ...)] *)
Definition compile_runner (directory : string)
    (themes : option (list Theme.t)) (flattenedPlugins : list Plugin.t)
    : Runner.t :=
  Runner.mk directory
    (resolveThemes
       (Some
          match themes with
          | Some themes => themes
          | None =>
              map (λ plugin, Theme.mk (Plugin.pluginFilepath plugin))
                flattenedPlugins
          end)).

(** *** What resolution collects *)

Section reach.
Variable ix : Indices.
Variable cache : gmap string (list string).

(** The names that the visits starting at a definition add to
    [usedFragments]. *)
Inductive reaches : Def.t → string → Prop :=
| reaches_cached d s derived x :
    In s (spreads d) → cache !! s = Some derived →
    x = s ∨ In x derived →
    reaches d x
| reaches_spread d s entry :
    In s (spreads d) → cache !! s = None →
    JSMap.get s (fragmentMap ix) = Some entry →
    reaches d s
| reaches_through d s entry x :
    In s (spreads d) → cache !! s = None →
    JSMap.get s (fragmentMap ix) = Some entry →
    reaches (Entry.def entry) x →
    reaches d x.

(** [d'] is pushed on the stack while [d] is visited. *)
Definition pushes (d d' : Def.t) : Prop :=
  In d' (flat_map (pushed_by ix cache) (spreads d)).
End reach.

Definition is_duplicate_root (e : Diagnostic) : bool :=
  match e with
  | MultipleRootQueriesError _ _ _ => true
  | _ => false
  end.

(** The diagnostics of the loop over the operations. *)
Definition per_operation (e : Diagnostic) : Prop :=
  match e with
  | MultipleRootQueriesError _ _ _ | Error85908 _ _ _ => True
  | _ => False
  end.

(** The first fragment definition of a name in a list of definitions. *)
Definition first_fragment (name : string) (definitions : list Def.t)
    : option Def.t :=
  find (λ d, negb (is_operation d) && String.eqb (Def.name d) name)
    definitions.

(** Two environments with the same printer, structural rules and paths;
    they may differ in the rules applied to the merged document. *)
Definition same_compiler (E1 E2 : Externals) : Prop :=
  @print E1 = @print E2
  ∧ @validate_pre E1 = @validate_pre E2
  ∧ @kebabCase E1 = @kebabCase E2
  ∧ @path_relative E1 = @path_relative E2
  ∧ @program_directory E1 = @program_directory E2.

(** Entries of the distance table of row [i] from column [j] on lie
    between the difference and the greater of the two indices. *)
Fixpoint between (i j : nat) (cells : list nat) : Prop :=
  match cells with
  | [] => True
  | x :: rest =>
      (i - j ≤ x ∧ j - i ≤ x ∧ x ≤ Nat.max i j) ∧ between i (S j) rest
  end.

(** *** Two definitions at each other's place *)



(** *** Definitions whose name may be absent *)

Module Node.
(** A definition node as [write] receives it: [name] is [undefined] for
    an anonymous operation. *)
Record t := mk {
  kind : Kind;
  name : option string;               (* def.name *)
  selectionSet : list selection;
  text : string;
  hash : string;
  isHook : bool;
  isStaticQuery : bool;
}.
End Node.

(** [definition.name.value] of the filter and [def.name.value] of
    [forEach]: a property of [undefined] is read when the name is
    absent. *)
Definition name_value (n : Node.t) : outcome Def.t :=
  match Node.name n with
  | Some name =>
      Returns
        {| Def.kind := Node.kind n; Def.name := name;
           Def.selectionSet := Node.selectionSet n;
           Def.text := Node.text n; Def.hash := Node.hash n;
           Def.isHook := Node.isHook n;
           Def.isStaticQuery := Node.isStaticQuery n |}
  | None => Throws
  end.

(** The names read in one file.  The filter reads the name of every
    fragment definition and keeps every operation; [forEach] reads the
    name of every definition that was kept. *)
Fixpoint name_values (doc : list Node.t) : outcome (list Def.t) :=
  match doc with
  | [] => Returns []
  | n :: rest =>
      let* d := name_value n in
      let* ds := name_values rest in
      Returns (d :: ds)
  end.

(** A definition with its name, as a node. *)
Definition node_of (d : Def.t) : Node.t :=
  {| Node.kind := Def.kind d; Node.name := Some (Def.name d);
     Node.selectionSet := Def.selectionSet d;
     Node.text := Def.text d; Node.hash := Def.hash d;
     Node.isHook := Def.isHook d;
     Node.isStaticQuery := Def.isStaticQuery d |}.

Definition nodes_of (nodes : list (string * list Def.t))
    : list (string * list Node.t) :=
  map (λ n, (n.1, map node_of n.2)) nodes.

Section nodes.
Context `{Externals}.
(** [validate (this.schema, doc, preValidationRules)] on such a
    document *)
Variable validate_nodes : list Node.t → list string.

(** The first loop of [write] on such documents. *)
Fixpoint merge_nodes (ix : Indices) (nodes : list (string * list Node.t))
    : outcome merged :=
  match nodes with
  | [] => Returns (Merged ix)
  | (filePath, doc) :: rest =>
      match validate_nodes doc with
      | [] =>
          let* definitions := name_values doc in
          merge_nodes (merge_file ix filePath definitions) rest
      | errs => Returns (Abandoned ix (map (StructuralError filePath) errs))
      end
  end.

(** [write] on such documents. *)
Definition write_nodes (fuel : nat) (nodes : list (string * list Node.t))
    : outcome (JSMap.t Query.t * list Diagnostic) :=
  let* m := merge_nodes no_indices nodes in
  match m with
  | Abandoned _ reported => Returns ([], reported)
  | Merged ix =>
      let* run :=
        compile_operations fuel ix
          {| compiledNodes := []; errors := global_errors ix;
             usedFragmentsForFragment := ∅ |}
          (operationDefinitions ix) in
      Returns (compiledNodes run, errors run)
  end.
End nodes.

(** A file that is reached, passes the structural rules and holds a
    definition without name. *)
Definition reaches_nameless (validate_nodes : list Node.t → list string)
    (nodes : list (string * list Node.t)) : Prop :=
  ∃ pre filePath doc post,
    nodes = pre ++ (filePath, doc) :: post
    ∧ Forall (λ n, validate_nodes n.2 = []
                   ∧ Forall (λ d, is_Some (Node.name d)) n.2) pre
    ∧ validate_nodes doc = []
    ∧ Exists (λ d, Node.name d = None) doc.

(** *** More sample inputs *)

Module Strict.
(** The sample environment with a rule that rejects every merged
    document. *)
Definition externals : Externals :=
  {| print := Sample.print_def;
     validate_pre := Sample.reject_broken;
     validate_main_rest := fun _ => ["Unknown directive"];
     docName := fun _ _ _ => "Q";
     kebabCase := Sample.kebab;
     path_relative := Sample.relative;
     program_directory := "/site" |}.
End Strict.

Module Disk.
(** A site with one page, one declaration file and one registered
    component outside [src]. *)
Definition glob (pattern : string) : list string :=
  if String.prefix "/site/src/" pattern
  then ["/site/src/pages/index.js"; "/site/src/types.d.ts";
        "/site/src/pages/index.js"]
  else [].

Definition host : Host :=
  {| path_join := String.concat "/";
     glob_sync := glob;
     normalize := fun p => p;
     modulesThatUseGatsby := [];
     components := ["/site/plugin/page.d.ts"; "/site/src/pages/index.js"] |}.

Definition runner : Runner.t := Runner.mk "/site" [].

(** The same site with a [normalize] that removes a trailing slash. *)
Definition strip (p : string) : string :=
  let n := String.length p in
  if (2 <=? n) && String.eqb (String.substring (n - 1) 1 p) "/"
  then String.substring 0 (n - 1) p
  else p.

Definition tidy_host : Host :=
  {| path_join := String.concat "/";
     glob_sync := glob;
     normalize := strip;
     modulesThatUseGatsby := [];
     components := ["/site/plugin/page.d.ts"; "/site/src/pages/index.js"] |}.
End Disk.

Module Roots.
(** A file with three operations, after a file of fragments. *)
Definition batch : list (string * list Def.t) :=
  [(Inputs.site_b, [Inputs.A]);
   (Inputs.site_a, [Inputs.Q1; Inputs.Q2; Inputs.Q_plain])].
End Roots.

Module Cycle.
Import Sample.
(** Two fragments that spread each other. *)
Definition Ping := fragment "Ping" [Field "a" []; FragmentSpread "Pong"].
Definition Pong := fragment "Pong" [FragmentSpread "Ping"].
Definition Q_ping :=
  operation "Loop" [Field "x" [FragmentSpread "Ping"]] "Loop".
Definition batch : list (string * list Def.t) :=
  [(Inputs.site_a, [Ping; Pong; Q_ping])].

(** An operation that spreads an unknown name and reaches the cycle. *)
Definition Q_lost :=
  operation "Lost" [FragmentSpread "Missing"; FragmentSpread "Ping"] "Lost".
Definition lost_batch : list (string * list Def.t) :=
  [(Inputs.site_a, [Ping; Pong; Q_lost])].
End Cycle.

Module Named.
Import Sample.
(** An operation named as the fragment of two files. *)
Definition Q_named_F := operation "F" [Field "x" []] "query F".
Definition batch : list (string * list Def.t) :=
  [(Inputs.site_c, [Q_named_F]); (Inputs.site_a, [Inputs.F_b]);
   (Inputs.site_b, [Inputs.F_b'])].

End Named.

Module Shadow.
Import Sample.
(** One operation name in two files; the second definition is a static
    query of a hook, with another hash. *)
Definition Home := operation "Home" [Field "x" []] "Home of a".
Definition Home' : Def.t :=
  {| Def.kind := OPERATION_DEFINITION; Def.name := "Home";
     Def.selectionSet := [Field "z" []]; Def.text := "Home of b";
     Def.hash := "h-other"; Def.isHook := true;
     Def.isStaticQuery := true |}.
Definition batch : list (string * list Def.t) :=
  [(Inputs.site_a, [Home]); (Inputs.site_b, [Home'])].
End Shadow.

Module Anonymous.
(** A lone anonymous operation, which the structural rules accept. *)
Definition lone : Node.t :=
  {| Node.kind := OPERATION_DEFINITION; Node.name := None;
     Node.selectionSet := [Field "site" []]; Node.text := "{ site }";
     Node.hash := "h"; Node.isHook := false;
     Node.isStaticQuery := false |}.
Definition accept (doc : list Node.t) : list string := [].
Definition batch : list (string * list Node.t) :=
  [(Inputs.site_a, map node_of [Inputs.Q_plain]); (Inputs.site_b, [lone])].
End Anonymous.

(** * Properties *)

(** ** Insertion-ordered maps *)

Lemma JSMap_get_set_eq {V} k (v : V) m :
  JSMap.get k (JSMap.set k v m) = Some v.
Proof.
  induction m as [|[k' v'] m IH]; simpl.
  - by rewrite String.eqb_refl.
  - destruct (String.eqb k k') eqn:E; simpl.
    + by rewrite String.eqb_refl.
    + by rewrite E.
Qed.

Lemma JSMap_get_set_ne {V} k k' (v : V) m :
  k ≠ k' → JSMap.get k' (JSMap.set k v m) = JSMap.get k' m.
Proof.
  intros Hne. induction m as [|[k0 v0] m IH]; simpl.
  - destruct (String.eqb_spec k' k); congruence.
  - destruct (String.eqb_spec k k0) as [->|]; simpl.
    + destruct (String.eqb_spec k' k0); congruence.
    + destruct (String.eqb_spec k' k0); congruence.
Qed.

Lemma JSMap_set_fresh {V} k (v : V) m :
  JSMap.get k m = None → JSMap.set k v m = m ++ [(k, v)].
Proof.
  induction m as [|[k0 v0] m IH]; simpl; [done|].
  destruct (String.eqb k k0); [done|]. intros Hm. by rewrite IH.
Qed.

Lemma JSMap_get_In {V} k (v : V) m :
  JSMap.get k m = Some v → In (k, v) m.
Proof.
  induction m as [|[k0 v0] m IH]; simpl; [done|].
  destruct (String.eqb_spec k k0) as [->|].
  - intros [= ->]. by left.
  - intros Hm. right. auto.
Qed.

Lemma JSMap_get_app {V} k (m1 m2 : JSMap.t V) :
  JSMap.get k (m1 ++ m2) =
    match JSMap.get k m1 with Some v => Some v | None => JSMap.get k m2 end.
Proof.
  induction m1 as [|[k0 v0] m1 IH]; simpl; [done|].
  by destruct (String.eqb k k0).
Qed.

Lemma JSMap_get_None_keys {V} k (m : JSMap.t V) :
  JSMap.get k m = None ↔ ¬ In k (JSMap.keys m).
Proof.
  induction m as [|[k0 v0] m IH]; simpl; [tauto|].
  destruct (String.eqb_spec k k0) as [->|]; split; intros Hk.
  - done.
  - destruct Hk. by left.
  - intros [->|Hin]; [done|]. by apply IH.
  - apply IH. tauto.
Qed.

Lemma JSSet_has_In x s : JSSet.has x s = true ↔ In x s.
Proof.
  unfold JSSet.has. rewrite existsb_exists. split.
  - intros (y & Hy & Heq). apply String.eqb_eq in Heq. by subst.
  - intros Hx. exists x. split; [done|]. apply String.eqb_refl.
Qed.

Lemma JSSet_In_add x y s : In x (JSSet.add y s) ↔ x = y ∨ In x s.
Proof.
  unfold JSSet.add. destruct (JSSet.has y s) eqn:E.
  - apply JSSet_has_In in E. split; [tauto|]. intros [->|]; done.
  - rewrite in_app_iff. simpl. split; [intros [|[|[]]]|intros [|]]; auto.
Qed.

Lemma JSSet_In_fold_add x derived s :
  In x (fold_left (λ used d, JSSet.add d used) derived s)
  ↔ In x derived ∨ In x s.
Proof.
  revert s. induction derived as [|d derived IH]; intros s; simpl.
  - tauto.
  - rewrite IH, JSSet_In_add. intuition congruence.
Qed.

(** ** The merge loop *)

Section merge_facts.
Context `{Externals}.

Lemma merge_files_valid ix pre rest :
  all_valid pre →
  merge_files ix (pre ++ rest) = merge_files (merge_all ix pre) rest.
Proof.
  intros Hpre. revert ix.
  induction Hpre as [|[f doc] pre Hdoc _ IH]; intros ix; [done|].
  simpl in *. rewrite Hdoc. apply IH.
Qed.

Lemma merge_files_all_valid ix nodes :
  all_valid nodes → merge_files ix nodes = Merged (merge_all ix nodes).
Proof.
  intros Hv. rewrite <- (app_nil_r nodes) at 1.
  by rewrite merge_files_valid.
Qed.

Lemma merge_files_rejected ix filePath doc post :
  validate_pre doc ≠ [] →
  merge_files ix ((filePath, doc) :: post)
    = Abandoned ix (map (StructuralError filePath) (validate_pre doc)).
Proof. simpl. by destruct (validate_pre doc). Qed.
End merge_facts.

(** C2.  When a file breaks a structural rule, [write] returns in that
    file's iteration: the indices at that point are the ones built from
    the files before it, the diagnostics are those of that file, and the
    returned map is empty, whatever the files that follow contain. *)
Theorem structural_failure_abandons_batch `{Externals}
    (pre : list (string * list Def.t)) (filePath : string)
    (doc : list Def.t) (post : list (string * list Def.t)) :
  all_valid pre →
  validate_pre doc ≠ [] →
  merge_files no_indices (pre ++ (filePath, doc) :: post)
    = Abandoned (merge_all no_indices pre)
        (map (StructuralError filePath) (validate_pre doc))
  ∧ ∀ fuel,
      write fuel (pre ++ (filePath, doc) :: post)
        = Returns ([], map (StructuralError filePath) (validate_pre doc)).
Proof.
  intros Hpre Hdoc.
  assert (merge_files no_indices (pre ++ (filePath, doc) :: post)
    = Abandoned (merge_all no_indices pre)
        (map (StructuralError filePath) (validate_pre doc))) as Hm.
  { rewrite merge_files_valid by done. by apply merge_files_rejected. }
  split; [done|]. intros fuel. unfold write, write_run. by rewrite Hm.
Qed.

Lemma structural_failure_abandons_batch_witness :
  write (H := Sample.externals) 0
    ([(Inputs.site_a, [Inputs.F_a])]
       ++ (Inputs.site_b, [Inputs.Q_broken])
       :: [(Inputs.site_c, [Inputs.F_b; Inputs.Q_F])])
  = Returns ([], [StructuralError Inputs.site_b "Cannot query field __broken"]).
Proof.
  refine (proj2 (structural_failure_abandons_batch (H := Sample.externals)
                   [(Inputs.site_a, [Inputs.F_a])] Inputs.site_b
                   [Inputs.Q_broken]
                   [(Inputs.site_c, [Inputs.F_b; Inputs.Q_F])] _ _) 0).
  - repeat constructor.
  - vm_compute. discriminate.
Defined.

(** ** The loop over the operations *)

Lemma bind_Returns {A B} (m : outcome A) (k : A → outcome B) b :
  bind m k = Returns b ↔ ∃ a, m = Returns a ∧ k a = Returns b.
Proof.
  destruct m; simpl; split; try done.
  - eauto.
  - by intros (? & [= ->] & ?).
  - by intros (? & ? & ?).
  - by intros (? & ? & ?).
Qed.

Lemma deref_Returns {A} (o : option A) a : deref o = Returns a ↔ o = Some a.
Proof. destruct o; simpl; split; congruence. Qed.

Section loop_facts.
Context `{Externals}.

(** The two ways in which an iteration ends normally. *)
Lemma compile_operation_Returns fuel ix run operation run' :
  compile_operation fuel ix run operation = Returns run' →
  let name := Def.name operation in
  let filePath := default "" (namePathMap ix !! name) in
  (∃ otherNode,
     JSMap.get filePath (compiledNodes run) = Some otherNode
     ∧ run' = add_error run
                (MultipleRootQueriesError filePath (nameDefMap ix !! name)
                   (nameDefMap ix !! Query.name otherNode)))
  ∨ (JSMap.get filePath (compiledNodes run) = None
     ∧ ∃ usedFragments errs defs d,
         resolve ix (usedFragmentsForFragment run) filePath fuel
           [operation] [] (errors run) = Returns (usedFragments, errs)
         ∧ fragment_defs (fragmentMap ix) usedFragments = Returns defs
         ∧ nameDefMap ix !! name = Some d
         ∧ run' =
             {| compiledNodes :=
                  compiledNodes run
                    ++ [(filePath,
                         make_query name filePath (defs ++ [operation]) d)];
                errors := errs;
                usedFragmentsForFragment := usedFragmentsForFragment run |}).
Proof.
  intros Hc name filePath. unfold compile_operation in Hc.
  fold name filePath in Hc.
  destruct (JSMap.get filePath (compiledNodes run)) as [otherNode|] eqn:Hget.
  - left. exists otherNode. split; [done|]. congruence.
  - right. split; [done|].
    apply bind_Returns in Hc as ([used errs] & Hres & Hc).
    apply bind_Returns in Hc as (defs & Hdefs & Hc).
    apply bind_Returns in Hc as (d & Hd & Hc).
    apply deref_Returns in Hd.
    exists used, errs, defs, d. repeat split; try done.
    rewrite JSMap_set_fresh in Hc by done. congruence.
Qed.

Lemma compile_operations_app fuel ix run ops1 ops2 :
  compile_operations fuel ix run (ops1 ++ ops2)
    = let* run1 := compile_operations fuel ix run ops1 in
      compile_operations fuel ix run1 ops2.
Proof.
  revert run. induction ops1 as [|op ops1 IH]; intros run; simpl; [done|].
  destruct (compile_operation fuel ix run op); simpl; auto.
Qed.

(** An invariant of the runs is kept by the loop when each iteration
    keeps it. *)
Lemma compile_operations_invariant (P : Run → Prop) fuel ix run ops run' :
  (∀ r op r',
     In op ops → P r → compile_operation fuel ix r op = Returns r' → P r') →
  P run →
  compile_operations fuel ix run ops = Returns run' →
  P run'.
Proof.
  revert run.
  induction ops as [|op ops IH]; intros run Hstep HP; simpl.
  - by intros [= <-].
  - intros (run1 & H1 & H2)%bind_Returns.
    apply (IH run1); [|by eapply Hstep; [left| |]|done].
    intros r op' r' Hin. apply Hstep. by right.
Qed.

(** [usedFragmentsForFragment] is read and never written. *)
Lemma compile_operation_cache fuel ix run operation run' :
  compile_operation fuel ix run operation = Returns run' →
  usedFragmentsForFragment run' = usedFragmentsForFragment run.
Proof.
  intros [(? & _ & ->)|(_ & ? & ? & ? & ? & _ & _ & _ & ->)]%compile_operation_Returns;
    done.
Qed.

Lemma compile_operations_cache fuel ix run ops run' :
  compile_operations fuel ix run ops = Returns run' →
  usedFragmentsForFragment run' = usedFragmentsForFragment run.
Proof.
  apply (compile_operations_invariant
           (λ r, usedFragmentsForFragment r = usedFragmentsForFragment run)).
  - intros r op r' _ Hr Hc. apply compile_operation_cache in Hc. congruence.
  - done.
Qed.

Lemma write_run_cache fuel nodes run :
  write_run fuel nodes = Returns run → usedFragmentsForFragment run = ∅.
Proof.
  unfold write_run. destruct (merge_files no_indices nodes).
  - intros Hc. by apply compile_operations_cache in Hc.
  - by intros [= <-].
Qed.

Lemma compile_operation_entries fuel ix run operation run' :
  (∀ p q, In (p, q) (compiledNodes run) → entry_ok p q) →
  compile_operation fuel ix run operation = Returns run' →
  ∀ p q, In (p, q) (compiledNodes run') → entry_ok p q.
Proof.
  intros Hrun [(? & _ & ->)|(_ & ? & ? & ? & ? & _ & _ & _ & ->)]%compile_operation_Returns;
    simpl; [done|].
  intros p q [Hin|[[= <- <-]|[]]]%in_app_iff; [by apply Hrun|]. by split.
Qed.

Lemma write_entries fuel nodes compiled errs :
  write fuel nodes = Returns (compiled, errs) →
  ∀ p q, In (p, q) compiled → entry_ok p q.
Proof.
  unfold write. intros (run & Hrun & [= <- <-])%bind_Returns.
  revert Hrun. unfold write_run.
  destruct (merge_files no_indices nodes) as [ix|ix reported].
  - apply (compile_operations_invariant
             (λ r, ∀ p q, In (p, q) (compiledNodes r) → entry_ok p q)).
    + intros r op r' _ Hr Hc. by eapply compile_operation_entries.
    + simpl. tauto.
  - intros [= <-]. simpl. tauto.
Qed.
End loop_facts.

(** C8.  The id of a static query is ["sq--"] followed by the kebab case
    of the path, relative to the program directory, under which the query
    is returned; hence two static queries, of one run or of two runs
    (be it with different program directories), whose relative paths
    agree carry the same id. *)
Theorem static_query_id_from_relative_path (E1 E2 : Externals)
    fuel1 nodes1 compiled1 errs1 filePath1 q1
    fuel2 nodes2 compiled2 errs2 filePath2 q2 :
  write (H := E1) fuel1 nodes1 = Returns (compiled1, errs1) →
  In (filePath1, q1) compiled1 →
  Query.isStaticQuery q1 = true →
  write (H := E2) fuel2 nodes2 = Returns (compiled2, errs2) →
  In (filePath2, q2) compiled2 →
  Query.isStaticQuery q2 = true →
  Query.id q1
    = Some ("sq--"
            +:+ @kebabCase E1
                  (@path_relative E1 (@program_directory E1) filePath1))
  ∧ (@kebabCase E1 = @kebabCase E2 →
     @path_relative E1 (@program_directory E1) filePath1
       = @path_relative E2 (@program_directory E2) filePath2 →
     Query.id q1 = Query.id q2).
Proof.
  intros Hw1 Hin1 Hs1 Hw2 Hin2 Hs2.
  destruct (write_entries _ _ _ _ Hw1 _ _ Hin1) as [_ Hid1].
  destruct (write_entries _ _ _ _ Hw2 _ _ Hin2) as [_ Hid2].
  rewrite Hs1 in Hid1. rewrite Hs2 in Hid2. split; [done|].
  intros Hkebab Hrel. rewrite Hid1, Hid2. unfold static_query_id.
  by rewrite Hkebab, Hrel.
Qed.

Lemma static_query_id_from_relative_path_witness :
  Query.id Inputs.compiled_static = Some "sq--src-a-js".
Proof.
  refine (proj1 (static_query_id_from_relative_path
    Sample.externals Sample.externals
    1 [(Inputs.site_a, [Inputs.Q_static])] _ []
      Inputs.site_a Inputs.compiled_static
    1 [(Inputs.site_a, [Inputs.F_a; Inputs.Q_static])] _ []
      Inputs.site_a Inputs.compiled_static _ _ _ _ _ _)).
  - vm_compute. reflexivity.
  - left. reflexivity.
  - reflexivity.
  - vm_compute. reflexivity.
  - left. reflexivity.
  - reflexivity.
Defined.

(** ** The suggestion for an undefined fragment *)

Section sort_facts.
Context {A : Type} (comparefn : A → A → Z).
Hypothesis never_negative : ∀ a b, (0 ≤ comparefn a b)%Z.

Lemma run_length_never_negative previous rest :
  Array.run_length comparefn false previous rest = List.length rest.
Proof.
  revert previous. induction rest as [|x rest IH]; intros previous; [done|].
  simpl. destruct (Z.ltb_spec (comparefn x previous) 0) as [Hlt|_].
  - specialize (never_negative x previous). lia.
  - by rewrite IH.
Qed.

(** A comparator that never answers with a negative number makes the
    whole array one ascending run: nothing is moved. *)
Lemma sort_never_negative a : Array.sort comparefn a = a.
Proof.
  unfold Array.sort, Array.count_and_make_run.
  destruct a as [|low [|high rest]]; try done.
  destruct (Z.ltb_spec (comparefn high low) 0) as [Hlt|_].
  { specialize (never_negative high low). lia. }
  rewrite run_length_never_negative.
  change (2 + List.length rest) with (List.length (low :: high :: rest)).
  by rewrite firstn_all, skipn_all.
Qed.
End sort_facts.

(** [(a, b) => a.score > b.score] answers [true] or [false], that is 1 or
    0: the candidates stay in the order of [fragmentNames], and the
    suggestion is the first registered name at a distance below 10. *)
Lemma closestFragment_first_near fragmentNames name :
  closestFragment fragmentNames name
    = head (List.filter (λ f, (levenshtein.get name f <? 10)%nat)
              fragmentNames).
Proof.
  unfold closestFragment. rewrite sort_never_negative.
  2:{ intros a b. by destruct (_ <? _)%nat. }
  induction fragmentNames as [|f l IH]; simpl; [done|].
  destruct (levenshtein.get name f <? 10)%nat; simpl; [done|]. apply IH.
Qed.

(** A suggestion is always at a distance below 10 ... *)
Lemma closestFragment_near fragmentNames name f :
  closestFragment fragmentNames name = Some f →
  In f fragmentNames ∧ (levenshtein.get name f < 10)%nat.
Proof.
  rewrite closestFragment_first_near.
  induction fragmentNames as [|g l IH]; simpl; [done|].
  destruct (Nat.ltb_spec (levenshtein.get name g) 10) as [Hlt|Hge]; simpl.
  - intros [= ->]. auto.
  - intros Hf. destruct (IH Hf). auto.
Qed.

(** ... and there is none exactly when every registered name is at a
    distance of 10 or more. *)
Lemma closestFragment_None fragmentNames name :
  closestFragment fragmentNames name = None
  ↔ ∀ f, In f fragmentNames → (10 ≤ levenshtein.get name f)%nat.
Proof.
  rewrite closestFragment_first_near.
  induction fragmentNames as [|g l IH]; simpl; [done|].
  destruct (Nat.ltb_spec (levenshtein.get name g) 10) as [Hlt|Hge]; simpl.
  - split; [done|]. intros Hall. specialize (Hall g (or_introl eq_refl)). lia.
  - rewrite IH. split.
    + intros Hall f [<-|Hf]; auto.
    + intros Hall f Hf. auto.
Qed.

(** The two examples of the specification, in its registration order. *)
Lemma closestFragment_examples :
  closestFragment ["UserFields"; "PostFields"] "UserField"
    = Some "UserFields"
  ∧ closestFragment ["UserFields"; "PostFields"] "CompletelyUnrelatedName"
    = None.
Proof. split; vm_compute; reflexivity. Qed.

(** C7.  With [PostFields] registered before [UserFields], the spread
    [...UserField] is answered with [PostFields], at distance 5, although
    [UserFields] is at distance 1: the suggestion is not the registered
    name of minimum distance. *)
Theorem closestFragment_not_minimum :
  levenshtein.get "UserField" "PostFields" = 5
  ∧ levenshtein.get "UserField" "UserFields" = 1
  ∧ closestFragment ["PostFields"; "UserFields"] "UserField"
    = Some "PostFields"
  ∧ ∃ compiled,
      write (H := Sample.externals) 1 Inputs.typo_batch
      = Returns (compiled,
                 [Error85908 Inputs.site_a "UserField" (Some "PostFields")]).
Proof.
  repeat split; try (vm_compute; reflexivity).
  eexists. vm_compute. reflexivity.
Qed.

(** ** Fragment resolution *)

Section resolve_facts.
Context `{Externals}.
Variable ix : Indices.
Variable cache : gmap string (list string).
Variable filePath : string.

Lemma on_spread_components stack used errs name :
  on_spread ix cache filePath (stack, used, errs) name
    = (pushed_by ix cache name ++ stack,
       use ix cache used name,
       errs ++ reported_by ix cache filePath name).
Proof.
  unfold on_spread, pushed_by, use, reported_by.
  destruct (cache !! name); [by rewrite app_nil_r|].
  destruct (JSMap.get name (fragmentMap ix)); simpl; by rewrite ?app_nil_r.
Qed.

Lemma visit_components names stack used errs :
  fold_left (on_spread ix cache filePath) names (stack, used, errs)
    = (rev (flat_map (pushed_by ix cache) names) ++ stack,
       fold_left (use ix cache) names used,
       errs ++ flat_map (reported_by ix cache filePath) names).
Proof.
  revert stack used errs.
  induction names as [|n names IH]; intros stack used errs;
    cbn [fold_left flat_map rev].
  - by rewrite app_nil_r.
  - rewrite on_spread_components, IH.
    rewrite rev_app_distr, <- !app_assoc. f_equal. f_equal.
    unfold pushed_by.
    destruct (cache !! n); [done|].
    by destruct (JSMap.get n (fragmentMap ix)).
Qed.

Lemma resolve_step fuel def stack used errs :
  resolve ix cache filePath (S fuel) (def :: stack) used errs
    = resolve ix cache filePath fuel
        (rev (flat_map (pushed_by ix cache) (spreads def)) ++ stack)
        (fold_left (use ix cache) (spreads def) used)
        (errs ++ flat_map (reported_by ix cache filePath) (spreads def)).
Proof.
  change (resolve ix cache filePath (S fuel) (def :: stack) used errs)
    with (let '(stack1, used1, errs1) :=
            fold_left (on_spread ix cache filePath) (spreads def)
              (stack, used, errs) in
          resolve ix cache filePath fuel stack1 used1 errs1).
  by rewrite visit_components.
Qed.

Lemma resolve_more_fuel fuel fuel' stack used errs r :
  resolve ix cache filePath fuel stack used errs = Returns r →
  fuel ≤ fuel' →
  resolve ix cache filePath fuel' stack used errs = Returns r.
Proof.
  revert fuel' stack used errs.
  induction fuel as [|fuel IH]; intros fuel' stack used errs.
  - destruct stack; [|done]. by destruct fuel'.
  - destruct stack as [|def stack].
    { by destruct fuel'. }
    destruct fuel' as [|fuel']; [lia|].
    rewrite !resolve_step. intros Hr Hle. apply IH; [done|lia].
Qed.

(** On a stack that halts, the loop returns once it is given enough
    iterations, whatever has been used and reported so far. *)
Lemma halts_resolve stack :
  halts ix cache stack →
  ∃ fuel, ∀ used errs,
    ∃ r, resolve ix cache filePath fuel stack used errs = Returns r.
Proof.
  induction 1 as [|def stack _ [fuel IH]].
  - exists 0. intros used errs. by eexists.
  - exists (S fuel). intros used errs. rewrite resolve_step. apply IH.
Qed.

Lemma halts_app stack1 stack2 :
  halts ix cache stack1 → halts ix cache stack2 →
  halts ix cache (stack1 ++ stack2).
Proof.
  induction 1 as [|def stack _ IH]; intros H2; [done|].
  simpl. constructor. rewrite app_assoc. by apply IH.
Qed.

Lemma halts_each stack :
  Forall (λ def, halts ix cache [def]) stack → halts ix cache stack.
Proof.
  induction 1 as [|def stack Hdef _ IH]; [constructor|].
  by apply (halts_app [def]).
Qed.

Lemma pushed_by_registered names def :
  In def (flat_map (pushed_by ix cache) names) →
  ∃ n entry,
    In n names ∧ cache !! n = None
    ∧ JSMap.get n (fragmentMap ix) = Some entry ∧ def = Entry.def entry.
Proof.
  intros (n & Hn & Hdef)%in_flat_map. unfold pushed_by in Hdef.
  destruct (cache !! n) eqn:Hc; [done|].
  destruct (JSMap.get n (fragmentMap ix)) as [entry|] eqn:Hg; [|done].
  destruct Hdef as [<-|[]]. by exists n, entry.
Qed.

Section acyclic.
Variable rank : string → nat.
Hypothesis Hacyclic : acyclic ix cache rank.

Lemma halts_registered n entry :
  JSMap.get n (fragmentMap ix) = Some entry →
  halts ix cache [Entry.def entry].
Proof.
  remember (rank n) as k eqn:Hk. revert n entry Hk.
  induction k as [k IH] using lt_wf_ind. intros n entry -> Hn.
  constructor. rewrite app_nil_r. apply halts_each.
  apply List.Forall_forall. intros def Hdef%in_rev.
  apply pushed_by_registered in Hdef as (s & e & Hs & Hc & Hg & ->).
  apply (IH (rank s)) with s; [|done|done].
  eapply Hacyclic; eauto.
Qed.

(** Without a cycle among the registered fragments, the loop halts from
    every definition. *)
Lemma halts_definition def : halts ix cache [def].
Proof.
  constructor. rewrite app_nil_r. apply halts_each.
  apply List.Forall_forall. intros d Hd%in_rev.
  apply pushed_by_registered in Hd as (s & e & _ & _ & Hg & ->).
  by eapply halts_registered.
Qed.

Lemma resolve_returns def :
  ∃ fuel, ∀ fuel' used errs,
    fuel ≤ fuel' →
    ∃ r, resolve ix cache filePath fuel' [def] used errs = Returns r.
Proof.
  destruct (halts_resolve [def] (halts_definition def)) as [fuel Hfuel].
  exists fuel. intros fuel' used errs Hle.
  destruct (Hfuel used errs) as [r Hr]. exists r.
  by eapply resolve_more_fuel.
Qed.
End acyclic.

(** What a finished loop has reported: the diagnostics it started with,
    followed by undefined-fragment diagnostics for [filePath]. *)
Lemma resolve_errors fuel stack used errs used' errs' :
  resolve ix cache filePath fuel stack used errs = Returns (used', errs') →
  ∃ added,
    errs' = errs ++ added
    ∧ Forall (λ e, ∃ n c, e = Error85908 filePath n c) added.
Proof.
  revert stack used errs.
  induction fuel as [|fuel IH]; intros stack used errs.
  - destruct stack; [|done]. intros [= <- <-]. exists [].
    by rewrite app_nil_r.
  - destruct stack as [|def stack].
    { intros [= <- <-]. exists []. by rewrite app_nil_r. }
    rewrite resolve_step. intros (added & -> & Hadded)%IH.
    exists (flat_map (reported_by ix cache filePath) (spreads def) ++ added).
    rewrite app_assoc. split; [done|].
    apply Forall_app. split; [|done].
    apply List.Forall_forall. intros e (n & _ & He)%in_flat_map.
    unfold reported_by in He.
    destruct (cache !! n); [done|].
    destruct (JSMap.get n (fragmentMap ix)); [done|].
    destruct He as [<-|[]]. eauto.
Qed.

(** The names in use are registered, when the cached ones are. *)
Lemma use_registered used name :
  cache_registered ix cache →
  (∀ x, In x used → is_Some (JSMap.get x (fragmentMap ix))) →
  ∀ x, In x (use ix cache used name) →
       is_Some (JSMap.get x (fragmentMap ix)).
Proof.
  intros Hcache Hused x. unfold use.
  destruct (cache !! name) as [derived|] eqn:Hc.
  - destruct (Hcache _ _ Hc) as [Hname Hderived].
    intros [->|[Hx|Hx]%JSSet_In_fold_add]%JSSet_In_add; auto.
  - destruct (JSMap.get name (fragmentMap ix)) eqn:Hg; [|by apply Hused].
    intros [->|Hx]%JSSet_In_add; [by rewrite Hg|by apply Hused].
Qed.

Lemma resolve_used_registered fuel stack used errs used' errs' :
  cache_registered ix cache →
  (∀ x, In x used → is_Some (JSMap.get x (fragmentMap ix))) →
  resolve ix cache filePath fuel stack used errs = Returns (used', errs') →
  ∀ x, In x used' → is_Some (JSMap.get x (fragmentMap ix)).
Proof.
  intros Hcache. revert stack used errs.
  induction fuel as [|fuel IH]; intros stack used errs Hused.
  - destruct stack; [|done]. by intros [= <- <-].
  - destruct stack as [|def stack].
    { by intros [= <- <-]. }
    rewrite resolve_step. apply IH.
    clear IH. revert used Hused.
    induction (spreads def) as [|n names IHn]; intros used Hused; simpl.
    + done.
    + apply IHn. by apply use_registered.
Qed.

Lemma fragment_defs_Returns names :
  (∀ x, In x names → is_Some (JSMap.get x (fragmentMap ix))) →
  ∃ defs, fragment_defs (fragmentMap ix) names = Returns defs.
Proof.
  induction names as [|n names IH]; intros Hnames; simpl.
  - by eexists.
  - destruct (Hnames n (or_introl eq_refl)) as [entry ->]. simpl.
    destruct IH as [defs ->]; [intros x Hx; apply Hnames; by right|].
    simpl. by eexists.
Qed.
End resolve_facts.

(** ** Duplicate roots come first *)

(** C4, as the code has it.  The duplicate-root check comes first in the
    iteration: an operation whose file already has a query is reported as
    a second root at once, with no iteration of the resolution loop and
    whatever it spreads; an operation whose file has no query yet only
    adds undefined-fragment diagnostics. *)
Theorem duplicate_root_check_precedes_resolution `{Externals}
    (fuel : nat) (ix : Indices) (run : Run) (operation : Def.t) :
  let name := Def.name operation in
  let filePath := default "" (namePathMap ix !! name) in
  (∀ otherNode,
     JSMap.get filePath (compiledNodes run) = Some otherNode →
     compile_operation fuel ix run operation
       = Returns
           (add_error run
              (MultipleRootQueriesError filePath (nameDefMap ix !! name)
                 (nameDefMap ix !! Query.name otherNode))))
  ∧ (JSMap.get filePath (compiledNodes run) = None →
     ∀ run',
       compile_operation fuel ix run operation = Returns run' →
       ∃ added,
         errors run' = errors run ++ added
         ∧ Forall (λ e, ∃ n c, e = Error85908 filePath n c) added).
Proof.
  intros name filePath. split.
  - intros otherNode Hget. unfold compile_operation.
    fold name filePath. by rewrite Hget.
  - intros Hget run'
      [(? & Hget' & _)|(_ & used & errs & defs & d & Hres & _ & _ & ->)]%compile_operation_Returns.
    + fold name filePath in Hget'. congruence.
    + simpl. by eapply resolve_errors.
Qed.

Lemma duplicate_root_check_precedes_resolution_witness :
  compile_operation (H := Sample.externals) 0
    (merge_all (H := Sample.externals) no_indices Inputs.two_roots_batch)
    {| compiledNodes := [(Inputs.site_a, Inputs.compiled_static)];
       errors := []; usedFragmentsForFragment := ∅ |}
    Inputs.Q2
  = Returns
      {| compiledNodes := [(Inputs.site_a, Inputs.compiled_static)];
         errors :=
           [MultipleRootQueriesError Inputs.site_a (Some Inputs.Q2) None];
         usedFragmentsForFragment := ∅ |}.
Proof.
  refine (proj1 (duplicate_root_check_precedes_resolution
                   (H := Sample.externals) 0
                   (merge_all (H := Sample.externals) no_indices
                      Inputs.two_roots_batch)
                   {| compiledNodes :=
                        [(Inputs.site_a, Inputs.compiled_static)];
                      errors := []; usedFragmentsForFragment := ∅ |}
                   Inputs.Q2) Inputs.compiled_static _).
  vm_compute. reflexivity.
Defined.

(** C4, as stated, fails on a file with two operations of which the
    second spreads an unregistered name: the second operation is reported
    as a duplicate root although its spread was never resolved, and no
    undefined-fragment diagnostic is produced for it. *)
Lemma duplicate_root_before_resolution :
  In "Missing" (spreads Inputs.Q2)
  ∧ fragmentMap (merge_all (H := Sample.externals) no_indices
                   Inputs.two_roots_batch) = []
  ∧ ∃ compiled,
      write (H := Sample.externals) 1 Inputs.two_roots_batch
      = Returns
          (compiled,
           [MultipleRootQueriesError Inputs.site_a
              (Some Inputs.Q2) (Some Inputs.Q1)]).
Proof.
  split; [vm_compute; by left|]. split; [reflexivity|].
  eexists. vm_compute. reflexivity.
Qed.

(** ** The fragment registry and the indices *)

Section registry_facts.
Context `{Externals}.

Lemma keep_definition_registry fm definition :
  registry_ok fm → registry_ok (keep_definition fm definition).2.
Proof.
  intros [Hnd Hall]. unfold keep_definition.
  destruct (Def.kind definition) eqn:Hkind; [done|].
  destruct (JSMap.get (Def.name definition) fm) as [entry|] eqn:Hget.
  - by destruct (String.eqb _ _).
  - simpl. rewrite JSMap_set_fresh by done. split.
    + unfold JSMap.keys. rewrite map_app. simpl.
      apply NoDup_app. repeat split; [done| |apply NoDup_singleton].
      intros x Hx Hx'. apply list_elem_of_In in Hx'. destruct Hx' as [<-|[]].
      apply JSMap_get_None_keys in Hget. apply Hget.
      by apply list_elem_of_In.
    + apply Forall_app. split; [done|]. by repeat constructor.
Qed.

Lemma filter_definitions_registry fm definitions :
  registry_ok fm → registry_ok (filter_definitions fm definitions).2.
Proof.
  revert fm. induction definitions as [|d rest IH]; intros fm Hfm; [done|].
  simpl. pose proof (keep_definition_registry fm d Hfm) as Hk.
  destruct (keep_definition fm d) as [keep fm1].
  specialize (IH fm1 Hk). by destruct (filter_definitions fm1 rest).
Qed.

Lemma index_definitions_fragmentMap filePath definitions ix :
  fragmentMap (fold_left (index_definition filePath) definitions ix)
    = fragmentMap ix.
Proof.
  revert ix. induction definitions as [|d rest IH]; intros ix; [done|].
  simpl. by rewrite IH.
Qed.

Lemma merge_file_fragmentMap ix filePath doc :
  fragmentMap (merge_file ix filePath doc)
    = (filter_definitions (fragmentMap ix) doc).2.
Proof.
  unfold merge_file.
  destruct (filter_definitions (fragmentMap ix) doc) as [defs fm].
  by rewrite index_definitions_fragmentMap.
Qed.

Lemma merge_all_registry ix nodes :
  registry_ok (fragmentMap ix) →
  registry_ok (fragmentMap (merge_all ix nodes)).
Proof.
  revert ix. induction nodes as [|[f doc] nodes IH]; intros ix Hix; [done|].
  simpl. apply IH. rewrite merge_file_fragmentMap.
  by apply filter_definitions_registry.
Qed.

Lemma merge_files_Merged ix0 nodes ix :
  merge_files ix0 nodes = Merged ix → ix = merge_all ix0 nodes.
Proof.
  revert ix0. induction nodes as [|[f doc] nodes IH]; intros ix0; simpl.
  - by intros [= <-].
  - destruct (validate_pre doc); [apply IH|done].
Qed.

(** Operations are never filtered out, and only they are listed. *)
Lemma index_definitions_operations filePath definitions ix :
  operationDefinitions (fold_left (index_definition filePath) definitions ix)
    = operationDefinitions ix
        ++ List.filter is_operation definitions.
Proof.
  revert ix. induction definitions as [|d rest IH]; intros ix; simpl.
  - by rewrite app_nil_r.
  - rewrite IH. simpl. unfold is_operation at 2.
    destruct (Def.kind d); simpl.
    + by rewrite <- app_assoc.
    + done.
Qed.

Lemma merge_all_operations_kind ix nodes :
  Forall (λ d, Def.kind d = OPERATION_DEFINITION) (operationDefinitions ix) →
  Forall (λ d, Def.kind d = OPERATION_DEFINITION)
    (operationDefinitions (merge_all ix nodes)).
Proof.
  revert ix. induction nodes as [|[f doc] nodes IH]; intros ix Hix; [done|].
  simpl. apply IH. unfold merge_file.
  destruct (filter_definitions (fragmentMap ix) doc) as [defs fm].
  rewrite index_definitions_operations. apply Forall_app. split; [done|].
  apply List.Forall_forall. intros d [_ Hd]%filter_In.
  by apply bool_decide_eq_true in Hd.
Qed.

(** [UniqueFragmentNamesRule] on the merged document. *)
Lemma UniqueFragmentNamesRule_operations known ops rest :
  Forall (λ d, Def.kind d = OPERATION_DEFINITION) ops →
  UniqueFragmentNamesRule known (ops ++ rest)
    = UniqueFragmentNamesRule known rest.
Proof.
  induction 1 as [|d ops Hd _ IH]; [done|]. simpl. by rewrite Hd.
Qed.

Lemma UniqueFragmentNamesRule_distinct known definitions :
  NoDup (map Def.name definitions) →
  (∀ d, In d definitions → ¬ In (Def.name d) known) →
  UniqueFragmentNamesRule known definitions = [].
Proof.
  revert known.
  induction definitions as [|d rest IH]; intros known Hnd Hknown; [done|].
  simpl in *. apply NoDup_cons in Hnd as [Hd Hnd].
  destruct (Def.kind d).
  - apply IH; [done|]. intros d' Hd'. apply Hknown. by right.
  - destruct (JSSet.has (Def.name d) known) eqn:Hhas.
    + apply JSSet_has_In in Hhas. by destruct (Hknown d (or_introl eq_refl)).
    + apply IH; [done|]. intros d' Hd' [Heq|Hin].
      * apply Hd. rewrite Heq. apply list_elem_of_In. by apply in_map.
      * by apply (Hknown d' (or_intror Hd')).
Qed.

Lemma registry_names fm :
  registry_ok fm →
  map Def.name (map Entry.def (JSMap.values fm)) = JSMap.keys fm.
Proof.
  intros [_ Hall]. unfold JSMap.values, JSMap.keys.
  induction Hall as [|[k e] fm [Hk _] _ IH]; [done|].
  simpl in *. by rewrite Hk, IH.
Qed.

(** The merged document lists every fragment name once: the rule has
    nothing to report, whatever the files contained. *)
Lemma UniqueFragmentNamesRule_silent nodes ix :
  merge_files no_indices nodes = Merged ix →
  UniqueFragmentNamesRule [] (globalDoc ix) = [].
Proof.
  intros ->%merge_files_Merged. unfold globalDoc.
  rewrite UniqueFragmentNamesRule_operations
    by (apply merge_all_operations_kind; constructor).
  assert (registry_ok (fragmentMap (merge_all no_indices nodes))) as Hfm.
  { apply merge_all_registry. split; constructor. }
  apply UniqueFragmentNamesRule_distinct; [|by intros d _ []].
  rewrite registry_names by done. apply Hfm.
Qed.

(** No run reports a fragment name as duplicated. *)
Lemma no_duplicate_fragment_diagnostic fuel nodes compiled errs p n :
  write fuel nodes = Returns (compiled, errs) →
  ¬ In (GlobalError p (DuplicateFragmentName n)) errs.
Proof.
  unfold write. intros (run & Hrun & [= <- <-])%bind_Returns.
  revert Hrun. unfold write_run.
  destruct (merge_files no_indices nodes) as [ix|ix reported] eqn:Hm.
  - apply (compile_operations_invariant
             (λ r, ¬ In (GlobalError p (DuplicateFragmentName n)) (errors r))).
    + intros r op r' _ Hr
        [(? & _ & ->)|(_ & ? & ? & ? & ? & Hres & _ & _ & ->)]%compile_operation_Returns;
        simpl.
      * intros [?|[[=]|[]]]%in_app_iff. done.
      * apply resolve_errors in Hres as (added & -> & Hadded).
        intros [?|Hin]%in_app_iff; [done|].
        rewrite List.Forall_forall in Hadded.
        by destruct (Hadded _ Hin) as (? & ? & [=]).
    + simpl. unfold global_errors, validate_main.
      rewrite (UniqueFragmentNamesRule_silent nodes ix Hm). simpl.
      rewrite map_map. by intros (? & [=] & _)%in_map_iff.
  - intros [= <-]. simpl.
    revert Hm. generalize no_indices.
    induction nodes as [|[f doc] nodes IH]; intros ix0; simpl; [done|].
    destruct (validate_pre doc) eqn:Hv; [apply IH|].
    intros [= _ <-]. change (StructuralError f s :: map (StructuralError f) l)
      with (map (StructuralError f) (s :: l)).
    by intros (? & [=] & _)%in_map_iff.
Qed.
End registry_facts.

(** C1, on the code.  Two files define a fragment [F] with different
    texts.  The second definition stays in its file's list, but the
    merged document is built from the registry, which holds the first
    alone: no diagnostic at all is produced, and the operation that
    spreads [F] is compiled with the first text. *)
Theorem conflicting_fragment_goes_unreported :
  Def.name Inputs.F_a = Def.name Inputs.F_b
  ∧ print (Externals := Sample.externals) Inputs.F_a
      ≠ print (Externals := Sample.externals) Inputs.F_b
  ∧ write (H := Sample.externals) 2 Inputs.conflict_batch
      = Returns ([(Inputs.site_b, Inputs.compiled_Q_F)], []).
Proof. repeat split; vm_compute; (reflexivity || discriminate). Qed.

(** C6, on the code.  Two pages spread [B], which spreads [A].  After the
    run the cache is as empty as at the start, and the second page is
    resolved like the first: its loop is not finished after two
    iterations and walks [B] and [A] in the third.  (Had the cache held
    the closure of [B], one iteration would do, and the names would be
    collected in another order.) *)
Theorem dependency_cache_stays_empty :
  let ix := merge_all (H := Sample.externals) no_indices Inputs.shared_batch in
  write_run (H := Sample.externals) 3 Inputs.shared_batch
    = Returns
        {| compiledNodes :=
             [(Inputs.site_a, Inputs.compiled_page "Page1" Inputs.site_a);
              (Inputs.site_b, Inputs.compiled_page "Page2" Inputs.site_b)];
           errors := [];
           usedFragmentsForFragment := ∅ |}
  ∧ resolve ix ∅ Inputs.site_b 2 [Inputs.Page2] [] [] = Unfinished
  ∧ resolve ix ∅ Inputs.site_b 3 [Inputs.Page2] [] []
      = Returns (["B"; "A"], [])
  ∧ resolve ix {["B" := ["A"]]} Inputs.site_b 1 [Inputs.Page2] [] []
      = Returns (["A"; "B"], []).
Proof. repeat split; vm_compute; reflexivity. Qed.

(** ** Last writer wins *)

Lemma find_app {A} (f : A → bool) l1 l2 :
  find f (l1 ++ l2)
    = match find f l1 with Some x => Some x | None => find f l2 end.
Proof.
  induction l1 as [|x l1 IH]; simpl; [done|]. by destruct (f x).
Qed.

Lemma last_named_app n l1 l2 :
  last_named n (l1 ++ l2)
    = match last_named n l2 with
      | Some p => Some p
      | None => last_named n l1
      end.
Proof. unfold last_named. by rewrite rev_app_distr, find_app. Qed.

Lemma last_named_In n l p :
  last_named n l = Some p → In p l ∧ Def.name p.2 = n.
Proof.
  unfold last_named. intros [Hin Heq]%find_some. split.
  - by apply in_rev.
  - by apply String.eqb_eq.
Qed.

Lemma last_named_None n l :
  last_named n l = None ↔ ∀ p, In p l → Def.name p.2 ≠ n.
Proof.
  unfold last_named. split.
  - intros Hnone p Hp%in_rev. apply (find_none _ _ Hnone) in Hp.
    by apply String.eqb_neq.
  - intros Hall. destruct (find _ _) as [p|] eqn:Hf; [|done].
    apply find_some in Hf as [Hin Heq%String.eqb_eq].
    apply in_rev in Hin. by destruct (Hall p Hin).
Qed.

Section index_facts.
Context `{Externals}.

Lemma index_definitions_lookup filePath definitions ix n :
  namePathMap (fold_left (index_definition filePath) definitions ix) !! n
    = match last_named n (map (pair filePath) definitions) with
      | Some p => Some p.1
      | None => namePathMap ix !! n
      end
  ∧ nameDefMap (fold_left (index_definition filePath) definitions ix) !! n
    = match last_named n (map (pair filePath) definitions) with
      | Some p => Some p.2
      | None => nameDefMap ix !! n
      end.
Proof.
  revert ix. induction definitions as [|d rest IH]; intros ix; [done|].
  cbn [fold_left map]. destruct (IH (index_definition filePath ix d)) as [-> ->].
  change ((filePath, d) :: map (pair filePath) rest)
    with ([(filePath, d)] ++ map (pair filePath) rest).
  rewrite last_named_app.
  destruct (last_named n (map (pair filePath) rest)); [done|].
  unfold last_named. simpl.
  destruct (String.eqb_spec (Def.name d) n) as [->|Hne].
  - by rewrite !lookup_insert_eq.
  - by rewrite !lookup_insert_ne.
Qed.

(** Both indices answer with the last definition of that name that
    reached [forEach], and with its file. *)
Lemma merge_all_lookup ix nodes n :
  namePathMap (merge_all ix nodes) !! n
    = match last_named n (indexed (fragmentMap ix) nodes) with
      | Some p => Some p.1
      | None => namePathMap ix !! n
      end
  ∧ nameDefMap (merge_all ix nodes) !! n
    = match last_named n (indexed (fragmentMap ix) nodes) with
      | Some p => Some p.2
      | None => nameDefMap ix !! n
      end.
Proof.
  revert ix. induction nodes as [|[f doc] nodes IH]; intros ix; [done|].
  cbn [merge_all fold_left indexed fst snd].
  fold (merge_all (merge_file ix f doc) nodes).
  destruct (IH (merge_file ix f doc)) as [-> ->].
  rewrite merge_file_fragmentMap. unfold merge_file.
  destruct (filter_definitions (fragmentMap ix) doc) as [defs fm].
  rewrite last_named_app. cbn [snd].
  destruct (last_named n (indexed fm nodes)); [done|].
  exact (index_definitions_lookup f defs (with_fragmentMap ix fm) n).
Qed.

Lemma merge_all_operations ix nodes :
  operationDefinitions (merge_all ix nodes)
    = operationDefinitions ix
        ++ List.filter is_operation
             (map snd (indexed (fragmentMap ix) nodes)).
Proof.
  revert ix. induction nodes as [|[f doc] nodes IH]; intros ix.
  - simpl. by rewrite app_nil_r.
  - cbn [merge_all fold_left indexed fst snd].
    fold (merge_all (merge_file ix f doc) nodes). rewrite IH.
    rewrite merge_file_fragmentMap. unfold merge_file.
    destruct (filter_definitions (fragmentMap ix) doc) as [defs fm].
    rewrite index_definitions_operations. cbn [snd operationDefinitions
      with_fragmentMap].
    rewrite map_app, List.filter_app, map_map. simpl. rewrite map_id.
    by rewrite <- app_assoc.
Qed.

End index_facts.

(** ** Two operations in one file *)

Section two_roots.
Context `{Externals}.

Lemma keep_definition_operation fm d :
  is_operation d = true → keep_definition fm d = (true, fm).
Proof.
  intros Hd%bool_decide_eq_true. unfold keep_definition. by rewrite Hd.
Qed.

Lemma filter_definitions_In fm definitions d :
  In d (filter_definitions fm definitions).1 → In d definitions.
Proof.
  revert fm. induction definitions as [|d0 rest IH]; intros fm; [done|].
  simpl. destruct (keep_definition fm d0) as [keep fm1].
  specialize (IH fm1). destruct (filter_definitions fm1 rest) as [kept fm2].
  destruct keep; simpl in *; intuition.
Qed.

Lemma filter_definitions_operations fm definitions :
  List.filter is_operation (filter_definitions fm definitions).1
    = List.filter is_operation definitions.
Proof.
  revert fm. induction definitions as [|d rest IH]; intros fm; [done|].
  simpl. destruct (is_operation d) eqn:Hd.
  - rewrite keep_definition_operation by done.
    specialize (IH fm). destruct (filter_definitions fm rest) as [kept fm2].
    simpl in *. by rewrite Hd, IH.
  - destruct (keep_definition fm d) as [keep fm1].
    specialize (IH fm1). destruct (filter_definitions fm1 rest) as [kept fm2].
    destruct keep; simpl in *; by rewrite ?Hd, IH.
Qed.

Lemma indexed_tagged fm nodes p :
  In p (indexed fm nodes) → In p (tagged nodes).
Proof.
  revert fm. induction nodes as [|[f doc] nodes IH]; intros fm; [done|].
  cbn [indexed tagged flat_map fst snd].
  pose proof (filter_definitions_In fm doc) as Hsub.
  destruct (filter_definitions fm doc) as [defs fm1].
  rewrite !in_app_iff. intros [Hp|Hp].
  - left. apply in_map_iff in Hp as (d & <- & Hd).
    apply in_map. by apply Hsub.
  - right. by eapply IH.
Qed.

Lemma indexed_operations fm nodes :
  List.filter is_operation (map snd (indexed fm nodes))
    = flat_map (λ n, List.filter is_operation n.2) nodes.
Proof.
  revert fm. induction nodes as [|[f doc] nodes IH]; intros fm; [done|].
  cbn [indexed flat_map snd].
  pose proof (filter_definitions_operations fm doc) as Hops.
  destruct (filter_definitions fm doc) as [defs fm1]. simpl in Hops.
  rewrite map_app, List.filter_app, IH, map_map. simpl. rewrite map_id.
  by rewrite Hops.
Qed.

Lemma operations_of_merge nodes :
  operationDefinitions (merge_all no_indices nodes)
    = flat_map (λ n, List.filter is_operation n.2) nodes.
Proof. rewrite merge_all_operations. apply indexed_operations. Qed.

Lemma tagged_indexed fm nodes p :
  In p (tagged nodes) → is_operation p.2 = true → In p (indexed fm nodes).
Proof.
  intros Hp Hop. revert fm Hp.
  induction nodes as [|[f doc] nodes IH]; intros fm; [done|].
  cbn [indexed tagged flat_map fst snd].
  pose proof (filter_definitions_operations fm doc) as Hops.
  destruct (filter_definitions fm doc) as [defs fm1].
  rewrite !in_app_iff. intros [Hin|Hin]; [left|right; by apply IH].
  apply in_map_iff in Hin as (d & <- & Hd). apply in_map.
  assert (In d (List.filter is_operation doc)) as Hf
    by (apply filter_In; by split).
  rewrite <- Hops in Hf. simpl in Hf. by apply filter_In in Hf as [? _].
Qed.

(** An operation whose name is its own is found again under its name,
    with its file. *)
Lemma operation_lookup nodes g op :
  operation_names_unique nodes →
  In (g, op) (tagged nodes) →
  Def.kind op = OPERATION_DEFINITION →
  namePathMap (merge_all no_indices nodes) !! Def.name op = Some g
  ∧ nameDefMap (merge_all no_indices nodes) !! Def.name op = Some op.
Proof.
  intros Hunique Hin Hkind.
  destruct (merge_all_lookup no_indices nodes (Def.name op)) as [-> ->].
  cbn [fragmentMap no_indices].
  destruct (last_named (Def.name op) (indexed [] nodes)) as [q|] eqn:Hq.
  - apply last_named_In in Hq as [Hq Hname].
    apply indexed_tagged in Hq.
    by rewrite (Hunique (g, op) q Hin Hq Hkind Hname).
  - exfalso. rewrite last_named_None in Hq.
    apply (Hq (g, op)); [|done].
    apply tagged_indexed; [done|]. by apply bool_decide_eq_true.
Qed.

Lemma filter_undefined_fragments f filePath errs added :
  Forall (λ e, ∃ n c, e = Error85908 filePath n c) added →
  List.filter (duplicate_root_of f) (errs ++ added)
    = List.filter (duplicate_root_of f) errs.
Proof.
  intros Hadded. rewrite List.filter_app.
  rewrite <- (app_nil_r (List.filter _ errs)) at 2. f_equal.
  induction Hadded as [|e added (n & c & ->) _ IH]; [done|]. apply IH.
Qed.

(** An iteration for another file leaves the entry of [f] and the
    duplicate-root diagnostics of [f] as they are. *)
Lemma compile_operation_other_file fuel ix run op run' f g :
  namePathMap ix !! Def.name op = Some g → g ≠ f →
  compile_operation fuel ix run op = Returns run' →
  JSMap.get f (compiledNodes run') = JSMap.get f (compiledNodes run)
  ∧ List.filter (duplicate_root_of f) (errors run')
    = List.filter (duplicate_root_of f) (errors run).
Proof.
  intros Hg Hne Hc. apply compile_operation_Returns in Hc.
  rewrite Hg in Hc. cbn [from_option id] in Hc.
  destruct Hc as [(other & _ & ->)|(_ & u & e & defs & d & Hres & _ & _ & ->)];
    cbn [compiledNodes errors add_error].
  - split; [done|]. rewrite List.filter_app. simpl.
    apply String.eqb_neq in Hne. rewrite Hne. by rewrite app_nil_r.
  - split.
    + rewrite JSMap_get_app. destruct (JSMap.get f (compiledNodes run)); [done|].
      simpl. destruct (String.eqb_spec f g); congruence.
    + apply resolve_errors in Hres as (added & -> & Hadded).
      by eapply filter_undefined_fragments.
Qed.

Lemma compile_operations_other_files fuel ix run ops run' f :
  (∀ op, In op ops → ∃ g, namePathMap ix !! Def.name op = Some g ∧ g ≠ f) →
  compile_operations fuel ix run ops = Returns run' →
  JSMap.get f (compiledNodes run') = JSMap.get f (compiledNodes run)
  ∧ List.filter (duplicate_root_of f) (errors run')
    = List.filter (duplicate_root_of f) (errors run).
Proof.
  intros Hops.
  apply (compile_operations_invariant
    (λ r, JSMap.get f (compiledNodes r) = JSMap.get f (compiledNodes run)
          ∧ List.filter (duplicate_root_of f) (errors r)
            = List.filter (duplicate_root_of f) (errors run))); [|done].
  intros r op r' Hin [Hr1 Hr2] Hc. destruct (Hops op Hin) as (g & Hg & Hne).
  destruct (compile_operation_other_file _ _ _ _ _ _ _ Hg Hne Hc) as [-> ->].
  done.
Qed.

(** Every iteration ends, given enough fuel, when the registry is free of
    cycles and the operation is indexed. *)
Lemma compile_operation_returns ix rank op :
  acyclic ix ∅ rank →
  is_Some (nameDefMap ix !! Def.name op) →
  ∃ fuel, ∀ fuel' run,
    fuel ≤ fuel' → usedFragmentsForFragment run = ∅ →
    ∃ run', compile_operation fuel' ix run op = Returns run'.
Proof.
  intros Hrank [d Hd].
  destruct (resolve_returns ix ∅
              (default "" (namePathMap ix !! Def.name op)) rank Hrank op)
    as [fuel Hfuel].
  exists fuel. intros fuel' run Hle Hcache. unfold compile_operation.
  destruct (JSMap.get _ (compiledNodes run)); [by eexists|].
  rewrite Hcache.
  destruct (Hfuel fuel' [] (errors run) Hle) as [[used errs] Hres].
  rewrite Hres. cbn [bind].
  destruct (fragment_defs_Returns ix used) as [defs ->].
  { eapply resolve_used_registered; [| |exact Hres].
    - intros k derived Hk. by rewrite lookup_empty in Hk.
    - by intros x []. }
  cbn [bind]. rewrite Hd. cbn [deref bind]. by eexists.
Qed.

Lemma compile_operations_returns ix rank ops :
  acyclic ix ∅ rank →
  (∀ op, In op ops → is_Some (nameDefMap ix !! Def.name op)) →
  ∃ fuel, ∀ fuel' run,
    fuel ≤ fuel' → usedFragmentsForFragment run = ∅ →
    ∃ run', compile_operations fuel' ix run ops = Returns run'.
Proof.
  intros Hrank. induction ops as [|op ops IH]; intros Hops.
  - exists 0. intros fuel' run _ _. by eexists.
  - destruct (compile_operation_returns ix rank op Hrank) as [fuel1 H1].
    { apply Hops. by left. }
    destruct IH as [fuel2 H2].
    { intros op' Hin. apply Hops. by right. }
    exists (Nat.max fuel1 fuel2). intros fuel' run Hle Hcache.
    destruct (H1 fuel' run) as [run1 Hrun1]; [lia|done|].
    cbn [compile_operations]. rewrite Hrun1. cbn [bind].
    apply H2; [lia|].
    apply compile_operation_cache in Hrun1. congruence.
Qed.
End two_roots.

(** C3, as the code has it.  In a batch that passes the structural rules,
    whose registry has no cycle and in which no other definition bears
    the name of an operation, a file with two operations gets the query
    of the first one, and exactly one duplicate-root diagnostic is
    reported for that file: the one that names the second operation and
    the first. *)
Theorem two_roots_first_wins `{Externals}
    (nodes : list (string * list Def.t)) (f : string) (doc : list Def.t)
    (op1 op2 : Def.t) (rank : string → nat) :
  all_valid nodes →
  NoDup (map fst nodes) →
  operation_names_unique nodes →
  acyclic (merge_all no_indices nodes) ∅ rank →
  In (f, doc) nodes →
  List.filter is_operation doc = [op1; op2] →
  ∃ fuel, ∀ fuel', fuel ≤ fuel' →
    ∃ compiled errs defs,
      write fuel' nodes = Returns (compiled, errs)
      ∧ JSMap.get f compiled
          = Some (make_query (Def.name op1) f (defs ++ [op1]) op1)
      ∧ List.filter (duplicate_root_of f) errs
          = [MultipleRootQueriesError f (Some op2) (Some op1)].
Proof.
  intros Hvalid Hfiles Hunique Hrank Hin Hdoc.
  set (ix := merge_all no_indices nodes) in *.
  (* every operation of the batch is indexed under its own file *)
  assert (∀ g d op, In (g, d) nodes → In op (List.filter is_operation d) →
            namePathMap ix !! Def.name op = Some g
            ∧ nameDefMap ix !! Def.name op = Some op) as Hlookup.
  { intros g d op Hg [Hop Hkind%bool_decide_eq_true]%filter_In.
    apply operation_lookup; [done| |done].
    apply in_flat_map. exists (g, d). split; [done|]. by apply in_map. }
  destruct (in_split _ _ Hin) as (pre & post & Hnodes).
  assert (∀ g d, In (g, d) (pre ++ post) → g ≠ f) as Hother.
  { intros g d Hgd ->. rewrite Hnodes, map_app in Hfiles. simpl in Hfiles.
    apply NoDup_app in Hfiles as (_ & Hpre & [Hpost _]%NoDup_cons).
    apply in_app_iff in Hgd as [Hgd|Hgd].
    - apply (Hpre f); [|by left].
      apply list_elem_of_In. by apply (in_map fst _ (f, d)).
    - apply Hpost. apply list_elem_of_In. by apply (in_map fst _ (f, d)). }
  assert (∀ part, (∀ n, In n part → In n (pre ++ post)) →
            ∀ op, In op (flat_map (λ n, List.filter is_operation n.2) part) →
                  ∃ g, namePathMap ix !! Def.name op = Some g ∧ g ≠ f)
    as Hparts.
  { intros part Hpart op ([g d] & Hgd & Hop)%in_flat_map.
    exists g. split; [|by eapply Hother, Hpart].
    apply (Hlookup g d); [|done].
    rewrite Hnodes. apply Hpart in Hgd.
    apply in_app_iff in Hgd as [?|?]; apply in_app_iff; [by left|].
    right. by right. }
  destruct (Hlookup f doc op1 Hin) as [Hpath1 Hdef1];
    [rewrite Hdoc; by left|].
  destruct (Hlookup f doc op2 Hin) as [Hpath2 Hdef2];
    [rewrite Hdoc; right; by left|].
  assert (operationDefinitions ix
          = flat_map (λ n, List.filter is_operation n.2) pre
              ++ [op1; op2]
              ++ flat_map (λ n, List.filter is_operation n.2) post) as Hops.
  { unfold ix. rewrite operations_of_merge, Hnodes, flat_map_app.
    simpl. by rewrite Hdoc. }
  destruct (compile_operations_returns ix rank (operationDefinitions ix) Hrank)
    as [fuel Hfuel].
  { rewrite Hops. intros op [Hop|[Hop|Hop]%in_app_iff]%in_app_iff.
    - destruct (Hparts pre) with op as (g & Hg & _); [|done|].
      { intros n Hn. apply in_app_iff. by left. }
      apply in_flat_map in Hop as ([g' d] & Hgd & Hop).
      destruct (Hlookup g' d op) as [_ ->]; [|done|done].
      rewrite Hnodes. apply in_app_iff. by left.
    - destruct Hop as [<-|[<-|[]]]; by eexists.
    - apply in_flat_map in Hop as ([g' d] & Hgd & Hop).
      destruct (Hlookup g' d op) as [_ ->]; [|done|done].
      rewrite Hnodes. apply in_app_iff. right. by right. }
  exists fuel. intros fuel' Hle.
  set (run0 := {| compiledNodes := []; errors := global_errors ix;
                  usedFragmentsForFragment := ∅ |}).
  destruct (Hfuel fuel' run0 Hle eq_refl) as [final Hfinal].
  pose proof Hfinal as Hrun. rewrite Hops in Hrun.
  rewrite compile_operations_app in Hrun.
  apply bind_Returns in Hrun as (runA & HA & Hrun).
  change ([op1; op2] ++ ?l) with (op1 :: op2 :: l) in Hrun.
  cbn [compile_operations] in Hrun.
  apply bind_Returns in Hrun as (run1 & H1 & Hrun).
  apply bind_Returns in Hrun as (run2 & H2 & HB).
  (* the operations of the files before [f] *)
  apply (compile_operations_other_files _ _ _ _ _ f) in HA as [HgetA HerrA].
  2:{ apply Hparts. intros n Hn. apply in_app_iff. by left. }
  unfold run0 in HgetA, HerrA.
  cbn [compiledNodes errors JSMap.get] in HgetA, HerrA.
  assert (List.filter (duplicate_root_of f) (global_errors ix) = []) as Hglobal.
  { unfold global_errors.
    induction (validate_main (globalDoc ix)) as [|e l IH]; [done|]. apply IH. }
  rewrite Hglobal in HerrA.
  (* the first operation *)
  apply compile_operation_Returns in H1. rewrite Hpath1 in H1.
  cbn [from_option id] in H1.
  destruct H1 as [(other & Hsome & _)|(_ & u & e & defs & d & Hres & _ & Hd & ->)];
    [congruence|].
  rewrite Hdef1 in Hd. injection Hd as <-.
  apply resolve_errors in Hres as (added & -> & Hadded).
  (* the second operation *)
  apply compile_operation_Returns in H2. rewrite Hpath2 in H2.
  cbn [from_option id compiledNodes] in H2.
  rewrite JSMap_get_app, HgetA in H2. cbn [JSMap.get] in H2.
  rewrite String.eqb_refl in H2.
  destruct H2 as [(other & [= <-] & ->)|(Hnone & _)]; [|done].
  cbn [make_query Query.name] in HB. rewrite Hdef1, Hdef2 in HB.
  (* the operations of the files after [f] *)
  apply (compile_operations_other_files _ _ _ _ _ f) in HB as [HgetB HerrB].
  2:{ apply Hparts. intros n Hn. apply in_app_iff. by right. }
  cbn [compiledNodes errors add_error] in HgetB, HerrB.
  exists (compiledNodes final), (errors final), defs.
  split; [|split].
  - unfold write, write_run. rewrite merge_files_all_valid by done.
    fold ix run0. by rewrite Hfinal.
  - rewrite HgetB, JSMap_get_app, HgetA. cbn [JSMap.get].
    by rewrite String.eqb_refl.
  - rewrite HerrB, List.filter_app.
    rewrite (filter_undefined_fragments f f _ added Hadded), HerrA.
    cbn. by rewrite String.eqb_refl.
Qed.

Lemma two_roots_first_wins_witness :
  ∃ fuel, ∀ fuel', fuel ≤ fuel' →
    ∃ compiled errs defs,
      write (H := Sample.externals) fuel' Inputs.three_files_batch
        = Returns (compiled, errs)
      ∧ JSMap.get Inputs.site_a compiled
          = Some (make_query (H := Sample.externals) "Q1" Inputs.site_a
                    (defs ++ [Inputs.Q1]) Inputs.Q1)
      ∧ List.filter (duplicate_root_of Inputs.site_a) errs
          = [MultipleRootQueriesError Inputs.site_a
               (Some Inputs.Q2) (Some Inputs.Q1)].
Proof.
  apply (two_roots_first_wins (H := Sample.externals)
           Inputs.three_files_batch Inputs.site_a [Inputs.Q1; Inputs.Q2]
           Inputs.Q1 Inputs.Q2 Inputs.rank_B_above_A).
  - repeat constructor.
  - apply NoDup_cons. split; [|apply NoDup_cons; split;
      [|apply NoDup_singleton]].
    + intros Hin%list_elem_of_In. destruct Hin as [[=]|[[=]|[]]].
    + intros Hin%list_elem_of_In. destruct Hin as [[=]|[]].
  - intros p q Hp Hq Hkind Hname.
    cbn in Hp, Hq.
    repeat (destruct Hp as [<-|Hp]; [|]); try destruct Hp;
      try discriminate Hkind;
      repeat (destruct Hq as [<-|Hq]; [|]); try destruct Hq;
      (reflexivity || discriminate Hname).
  - intros n entry s Hn Hs _ _.
    change (fragmentMap
              (merge_all (H := Sample.externals) no_indices
                 Inputs.three_files_batch))
      with [("A", Entry.mk Inputs.A "fragment A { a }");
            ("B", Entry.mk Inputs.B "fragment B { b ...A }")] in Hn.
    cbn [JSMap.get] in Hn.
    destruct (String.eqb_spec n "A") as [->|_].
    { injection Hn as <-. destruct Hs. }
    destruct (String.eqb_spec n "B") as [->|_]; [|discriminate].
    injection Hn as <-. destruct Hs as [<-|[]]. vm_compute. lia.
  - right. left. reflexivity.
  - reflexivity.
Defined.

(** C3, as stated, fails when a later file defines an operation named as
    the first of the two: the first operation is filed under the later
    file, the second operation becomes the query of the file with two
    operations, and no duplicate-root diagnostic is reported for that
    file. *)
Lemma two_roots_shadowed_by_name :
  List.filter is_operation [Inputs.Q1; Inputs.Q_plain]
    = [Inputs.Q1; Inputs.Q_plain]
  ∧ ∃ compiled errs,
      write (H := Sample.externals) 1 Inputs.shadowed_batch
        = Returns (compiled, errs)
      ∧ List.filter (duplicate_root_of Inputs.site_a) errs = []
      ∧ option_map Query.name (JSMap.get Inputs.site_a compiled)
          = Some "Plain".
Proof.
  split; [reflexivity|]. eexists _, _.
  split; [vm_compute; reflexivity|]. split; reflexivity.
Qed.

(** ** Exact duplicates of a fragment *)

Lemma Forall2_rev {A B} (R : A → B → Prop) l l' :
  Forall2 R l l' → Forall2 R (rev l) (rev l').
Proof.
  induction 1 as [|x y l l' Hxy _ IH]; [constructor|].
  simpl. apply Forall2_app; [done|]. by repeat constructor.
Qed.

Lemma Forall2_flat_map {A B C} (R : B → C → Prop) (f : A → list B)
    (g : A → list C) l :
  (∀ x, Forall2 R (f x) (g x)) → Forall2 R (flat_map f l) (flat_map g l).
Proof.
  intros Hfg. induction l as [|x l IH]; [constructor|].
  simpl. by apply Forall2_app.
Qed.

Section twins.
Context `{Externals}.
Variable n0 : string.

Lemma twin_refl d : twin n0 d d.
Proof. by left. Qed.

Lemma twin_facts d d' :
  twin n0 d d' →
  Def.kind d = Def.kind d' ∧ Def.name d = Def.name d'
  ∧ print d = print d' ∧ spreads d = spreads d'.
Proof.
  intros [->|(Hk & Hk' & Hn & Hn' & Hp & Hs)]; [done|].
  repeat split; congruence.
Qed.



Lemma twin_registry_get fm fm' k :
  twin_registry n0 fm fm' →
  match JSMap.get k fm, JSMap.get k fm' with
  | Some e, Some e' =>
      Entry.text e = Entry.text e' ∧ twin n0 (Entry.def e) (Entry.def e')
  | None, None => True
  | _, _ => False
  end.
Proof.
  induction 1 as [|[k1 e1] [k2 e2] fm fm' (Hk & Ht & Hd) _ IH]; [done|].
  simpl in *. subst k2. by destruct (String.eqb k k1).
Qed.

Lemma twin_registry_keys fm fm' :
  twin_registry n0 fm fm' → JSMap.keys fm = JSMap.keys fm'.
Proof.
  induction 1 as [|[k1 e1] [k2 e2] fm fm' (Hk & _) _ IH]; [done|].
  simpl in *. by rewrite Hk, IH.
Qed.







(** *** Resolution through twin registries *)

Section resolution.
Variables ix ix' : Indices.
Variable cache : gmap string (list string).
Variable filePath : string.
Hypothesis Hfm : twin_registry n0 (fragmentMap ix) (fragmentMap ix').

Lemma pushed_by_twin n :
  Forall2 (twin n0) (pushed_by ix cache n) (pushed_by ix' cache n).
Proof.
  unfold pushed_by. destruct (cache !! n); [constructor|].
  pose proof (twin_registry_get _ _ n Hfm) as Hget.
  destruct (JSMap.get n (fragmentMap ix)),
           (JSMap.get n (fragmentMap ix')); try done.
  destruct Hget. constructor; [done|constructor].
Qed.

Lemma use_twin used n : use ix cache used n = use ix' cache used n.
Proof.
  unfold use. destruct (cache !! n); [done|].
  pose proof (twin_registry_get _ _ n Hfm) as Hget.
  by destruct (JSMap.get n (fragmentMap ix)),
              (JSMap.get n (fragmentMap ix')).
Qed.

Lemma reported_by_twin n :
  reported_by ix cache filePath n = reported_by ix' cache filePath n.
Proof.
  unfold reported_by, fragmentNames. destruct (cache !! n); [done|].
  pose proof (twin_registry_get _ _ n Hfm) as Hget.
  rewrite (twin_registry_keys _ _ Hfm).
  by destruct (JSMap.get n (fragmentMap ix)),
              (JSMap.get n (fragmentMap ix')).
Qed.

(** The names collected by the loop are the same, whatever had been
    reported before. *)
Lemma resolve_twin fuel stack stack' used errs errs' :
  Forall2 (twin n0) stack stack' →
  outcome_rel (λ r r', r.1 = r'.1)
    (resolve ix cache filePath fuel stack used errs)
    (resolve ix' cache filePath fuel stack' used errs').
Proof.
  revert stack stack' used errs errs'.
  induction fuel as [|fuel IH]; intros stack stack' used errs errs' Hstack.
  - by destruct Hstack.
  - destruct Hstack as [|d d' stack stack' Hd Hstack]; [done|].
    rewrite !resolve_step.
    destruct (twin_facts d d' Hd) as (_ & _ & _ & <-).
    replace (fold_left (use ix' cache) (spreads d) used)
      with (fold_left (use ix cache) (spreads d) used).
    2:{ clear IH. revert used. induction (spreads d) as [|n l IHl];
          intros used; [done|]. simpl. by rewrite use_twin, IHl. }
    apply IH. apply Forall2_app; [|done].
    apply Forall2_rev, Forall2_flat_map, pushed_by_twin.
Qed.

End resolution.




End twins.

Section exact_duplicates.
Context `{Externals}.

Lemma filter_definitions_app fm l1 l2 :
  filter_definitions fm (l1 ++ l2)
    = let '(kept1, fm1) := filter_definitions fm l1 in
      let '(kept2, fm2) := filter_definitions fm1 l2 in
      (kept1 ++ kept2, fm2).
Proof.
  revert fm. induction l1 as [|d l1 IH]; intros fm; simpl.
  - by destruct (filter_definitions fm l2).
  - destruct (keep_definition fm d) as [keep fm1]. rewrite IH.
    destruct (filter_definitions fm1 l1) as [kept1 fm2].
    destruct (filter_definitions fm2 l2) as [kept2 fm3].
    by destruct keep.
Qed.

(** First writer wins: an entry of the registry is never replaced. *)
Lemma keep_definition_persists fm d k entry :
  JSMap.get k fm = Some entry →
  JSMap.get k (keep_definition fm d).2 = Some entry.
Proof.
  intros Hk. unfold keep_definition. destruct (Def.kind d); [done|].
  destruct (JSMap.get (Def.name d) fm) eqn:Hd.
  - by destruct (String.eqb _ _).
  - simpl. rewrite JSMap_get_set_ne; [done|]. congruence.
Qed.

Lemma filter_definitions_persists fm definitions k entry :
  JSMap.get k fm = Some entry →
  JSMap.get k (filter_definitions fm definitions).2 = Some entry.
Proof.
  revert fm. induction definitions as [|d rest IH]; intros fm Hk; [done|].
  simpl. pose proof (keep_definition_persists fm d k entry Hk) as Hk1.
  destruct (keep_definition fm d) as [keep fm1].
  specialize (IH fm1 Hk1). by destruct (filter_definitions fm1 rest).
Qed.

Lemma merge_all_persists ix nodes k entry :
  JSMap.get k (fragmentMap ix) = Some entry →
  JSMap.get k (fragmentMap (merge_all ix nodes)) = Some entry.
Proof.
  revert ix. induction nodes as [|[f doc] nodes IH]; intros ix Hk; [done|].
  simpl. apply IH. rewrite merge_file_fragmentMap.
  by apply filter_definitions_persists.
Qed.

(** A name that no definition bears stays out of the registry. *)
Lemma filter_definitions_fresh fm definitions k :
  (∀ d, In d definitions → Def.name d ≠ k) →
  JSMap.get k (filter_definitions fm definitions).2 = JSMap.get k fm.
Proof.
  revert fm. induction definitions as [|d rest IH]; intros fm Hk; [done|].
  simpl.
  assert (JSMap.get k (keep_definition fm d).2 = JSMap.get k fm) as Hk1.
  { unfold keep_definition. destruct (Def.kind d); [done|].
    destruct (JSMap.get (Def.name d) fm).
    - by destruct (String.eqb _ _).
    - simpl. apply JSMap_get_set_ne. apply Hk. by left. }
  destruct (keep_definition fm d) as [keep fm1]. simpl in Hk1.
  rewrite <- Hk1. specialize (IH fm1).
  destruct (filter_definitions fm1 rest). apply IH.
  intros d' Hd'. apply Hk. by right.
Qed.

Lemma merge_all_fresh ix nodes k :
  (∀ p, In p (tagged nodes) → Def.name p.2 ≠ k) →
  JSMap.get k (fragmentMap (merge_all ix nodes))
    = JSMap.get k (fragmentMap ix).
Proof.
  revert ix. induction nodes as [|[f doc] nodes IH]; intros ix Hk; [done|].
  simpl. rewrite IH.
  - rewrite merge_file_fragmentMap. apply filter_definitions_fresh.
    intros d Hd. apply (Hk (f, d)). apply in_app_iff. left. by apply in_map.
  - intros p Hp. apply Hk. apply in_app_iff. by right.
Qed.

(** The filter drops a fragment definition whose text is the registered
    one. *)
Lemma exact_duplicate_filtered fm d entry rest :
  Def.kind d = FRAGMENT_DEFINITION →
  JSMap.get (Def.name d) fm = Some entry →
  Entry.text entry = print d →
  filter_definitions fm (d :: rest) = filter_definitions fm rest.
Proof.
  intros Hkind Hget Htext. simpl. unfold keep_definition.
  rewrite Hkind, Hget, Htext, String.eqb_refl.
  by destruct (filter_definitions fm rest).
Qed.

Lemma merge_file_without_duplicate ix filePath b1 d b2 entry :
  Def.kind d = FRAGMENT_DEFINITION →
  JSMap.get (Def.name d) (fragmentMap ix) = Some entry →
  Entry.text entry = print d →
  merge_file ix filePath (b1 ++ d :: b2) = merge_file ix filePath (b1 ++ b2).
Proof.
  intros Hkind Hget Htext. unfold merge_file.
  rewrite !filter_definitions_app.
  pose proof (filter_definitions_persists (fragmentMap ix) b1 _ _ Hget) as Hp.
  destruct (filter_definitions (fragmentMap ix) b1) as [kept1 fm1].
  by rewrite (exact_duplicate_filtered fm1 d entry b2).
Qed.

Lemma merge_all_app ix nodes1 nodes2 :
  merge_all ix (nodes1 ++ nodes2) = merge_all (merge_all ix nodes1) nodes2.
Proof. apply fold_left_app. Qed.

Lemma merge_all_single ix filePath doc :
  merge_all ix [(filePath, doc)] = merge_file ix filePath doc.
Proof. done. Qed.

(** The earlier of the two is the registered one when no definition
    before it bears the name. *)
Lemma first_definition_registered pre fA a1 d1 a2 mid :
  Def.kind d1 = FRAGMENT_DEFINITION →
  (∀ p, In p (tagged pre) → Def.name p.2 ≠ Def.name d1) →
  (∀ d, In d a1 → Def.name d ≠ Def.name d1) →
  JSMap.get (Def.name d1)
    (fragmentMap
       (merge_all no_indices (pre ++ (fA, a1 ++ d1 :: a2) :: mid)))
    = Some (Entry.mk d1 (print d1)).
Proof.
  intros Hkind Hpre Ha1.
  change ((fA, a1 ++ d1 :: a2) :: mid)
    with ([(fA, a1 ++ d1 :: a2)] ++ mid).
  rewrite !merge_all_app. apply merge_all_persists.
  rewrite merge_all_single, merge_file_fragmentMap.
  rewrite filter_definitions_app.
  pose proof (filter_definitions_fresh
                (fragmentMap (merge_all no_indices pre)) a1 _ Ha1) as Hfresh.
  rewrite (merge_all_fresh no_indices pre _ Hpre) in Hfresh.
  destruct (filter_definitions _ a1) as [kept1 fm1]. simpl in Hfresh.
  cbn [filter_definitions].
  destruct (keep_definition fm1 d1) as [keep fm2] eqn:Hkeep.
  unfold keep_definition in Hkeep.
  rewrite Hkind, Hfresh in Hkeep. injection Hkeep as _ <-.
  pose proof (filter_definitions_persists
                (JSMap.set (Def.name d1) (Entry.mk d1 (print d1)) fm1) a2
                (Def.name d1) (Entry.mk d1 (print d1))
                (JSMap_get_set_eq _ _ _)) as Hp.
  destruct (filter_definitions _ a2) as [kept2 fm3]. exact Hp.
Qed.
End exact_duplicates.

(** ** What [write] never does, and when it ends *)

Section run_facts.
Context `{Externals}.

Lemma resolve_not_Throws ix cache filePath fuel stack used errs :
  resolve ix cache filePath fuel stack used errs ≠ Throws.
Proof.
  revert stack used errs.
  induction fuel as [|fuel IH]; intros [|def stack] used errs; try done.
  rewrite resolve_step. apply IH.
Qed.

(** Every operation of the list is indexed under its name. *)
Lemma operations_are_indexed nodes op :
  In op (operationDefinitions (merge_all no_indices nodes)) →
  is_Some (namePathMap (merge_all no_indices nodes) !! Def.name op)
  ∧ is_Some (nameDefMap (merge_all no_indices nodes) !! Def.name op).
Proof.
  rewrite merge_all_operations. cbn [operationDefinitions no_indices app].
  intros [Hin _]%filter_In. apply in_map_iff in Hin as ([g d] & <- & Hin).
  cbn [snd].
  destruct (merge_all_lookup no_indices nodes (Def.name d)) as [-> ->].
  cbn [fragmentMap no_indices].
  destruct (last_named (Def.name d) (indexed [] nodes)) eqn:Hlast;
    [by split|].
  rewrite last_named_None in Hlast. by destruct (Hlast (g, d) Hin).
Qed.

Lemma compile_operation_not_Throws fuel ix run op :
  usedFragmentsForFragment run = ∅ →
  is_Some (nameDefMap ix !! Def.name op) →
  compile_operation fuel ix run op ≠ Throws.
Proof.
  intros Hcache [d Hd]. unfold compile_operation.
  destruct (JSMap.get _ (compiledNodes run)); [done|]. rewrite Hcache.
  destruct (resolve ix ∅ _ fuel [op] [] (errors run))
    as [[used errs]| |] eqn:Hres; [|done|by apply resolve_not_Throws in Hres].
  cbn [bind].
  destruct (fragment_defs_Returns ix used) as [defs ->].
  { eapply resolve_used_registered; [| |exact Hres].
    - intros k derived Hk. by rewrite lookup_empty in Hk.
    - by intros x []. }
  cbn [bind]. by rewrite Hd.
Qed.

Lemma compile_operations_not_Throws fuel ix run ops :
  usedFragmentsForFragment run = ∅ →
  (∀ op, In op ops → is_Some (nameDefMap ix !! Def.name op)) →
  compile_operations fuel ix run ops ≠ Throws.
Proof.
  revert run. induction ops as [|op ops IH]; intros run Hcache Hops; [done|].
  cbn [compile_operations].
  destruct (compile_operation fuel ix run op) as [run1| |] eqn:Hstep;
    cbn [bind]; [|done|].
  - apply IH.
    + apply compile_operation_cache in Hstep. congruence.
    + intros op' Hin. apply Hops. by right.
  - apply compile_operation_not_Throws in Hstep; [done|done|].
    apply Hops. by left.
Qed.
End run_facts.

(** With every definition named, no [fragmentMap.get (name).def] and no
    [nameDefMap.get (name)] of the loop over the operations is
    undefined. *)
Lemma loop_reads_are_defined `{Externals}
    (fuel : nat) (nodes : list (string * list Def.t)) :
  write fuel nodes ≠ Throws.
Proof.
  unfold write, write_run.
  destruct (merge_files no_indices nodes) as [ix|ix reported] eqn:Hm;
    [|done].
  apply merge_files_Merged in Hm as ->.
  destruct (compile_operations _ _ _ _) eqn:Hloop; try done.
  apply compile_operations_not_Throws in Hloop; [done|done|].
  intros op Hop. by apply operations_are_indexed.
Qed.

(** X2.  When no registered fragment spreads itself, directly or through
    other fragments, [write] returns: some number of iterations of the
    inner loop is enough for every operation of the batch. *)
Theorem write_returns `{Externals}
    (nodes : list (string * list Def.t)) (rank : string → nat) :
  acyclic (merge_all no_indices nodes) ∅ rank →
  ∃ fuel, ∀ fuel', fuel ≤ fuel' →
    ∃ compiled errs, write fuel' nodes = Returns (compiled, errs).
Proof.
  intros Hrank. unfold write, write_run.
  destruct (merge_files no_indices nodes) as [ix|ix reported] eqn:Hm.
  - apply merge_files_Merged in Hm as ->.
    destruct (compile_operations_returns (merge_all no_indices nodes) rank
                (operationDefinitions (merge_all no_indices nodes)) Hrank)
      as [fuel Hfuel].
    { intros op Hop. by apply operations_are_indexed. }
    exists fuel. intros fuel' Hle.
    match goal with
    | |- context [compile_operations _ _ ?r _] =>
        destruct (Hfuel fuel' r Hle eq_refl) as [run Hrun]
    end.
    exists (compiledNodes run), (errors run). by rewrite Hrun.
  - exists 0. intros fuel' _. by eexists _, _.
Qed.

Lemma write_returns_witness :
  ∃ fuel, ∀ fuel', fuel ≤ fuel' →
    ∃ compiled errs,
      write (H := Sample.externals) fuel' Inputs.shared_batch
        = Returns (compiled, errs).
Proof.
  apply (write_returns (H := Sample.externals) Inputs.shared_batch
           Inputs.rank_B_above_A).
  intros n entry s Hn Hs _ _.
  change (fragmentMap
            (merge_all (H := Sample.externals) no_indices
               Inputs.shared_batch))
    with [("A", Entry.mk Inputs.A "fragment A { a }");
          ("B", Entry.mk Inputs.B "fragment B { b ...A }")] in Hn.
  cbn [JSMap.get] in Hn.
  destruct (String.eqb_spec n "A") as [->|_].
  { injection Hn as <-. destruct Hs. }
  destruct (String.eqb_spec n "B") as [->|_]; [|discriminate].
  injection Hn as <-. destruct Hs as [<-|[]]. vm_compute. lia.
Defined.

Section cycles.
Context `{Externals}.
Variable ix : Indices.
Variable cache : gmap string (list string).
Variable filePath : string.

(** A stack that holds a definition from which a cycle of pushes can be
    reached is never emptied. *)
Lemma resolve_cycle fuel stack used errs d c :
  In d stack →
  rtc (pushes ix cache) d c →
  tc (pushes ix cache) c c →
  resolve ix cache filePath fuel stack used errs = Unfinished.
Proof.
  intros Hd Hdc Hcc. revert stack used errs d Hd Hdc.
  induction fuel as [|fuel IH]; intros stack used errs d Hd Hdc.
  - by destruct stack.
  - destruct stack as [|top stack]; [done|]. rewrite resolve_step.
    destruct Hd as [->|Hd].
    + assert (∃ d1, pushes ix cache d d1 ∧ rtc (pushes ix cache) d1 c)
        as (d1 & Hstep & Hd1).
      { apply rtc_inv in Hdc as [->|(d1 & Hstep & Hd1)]; [|by eauto].
        inversion Hcc as [? ? Hstep|? d1 ? Hstep Hd1]; subst.
        - exists c. split; [done|apply rtc_refl].
        - exists d1. split; [done|by apply tc_rtc]. }
      apply (IH _ _ _ d1); [|done].
      apply in_app_iff. left. by apply in_rev in Hstep.
    + apply (IH _ _ _ d); [|done]. apply in_app_iff. by right.
Qed.
End cycles.

(** X3.  An operation whose resolution reaches a cycle of fragments -
    one that spreads itself, or two that spread each other - keeps the
    inner loop running for ever: no number of iterations ends it. *)
Theorem fragment_cycle_never_ends `{Externals}
    (ix : Indices) (run : Run) (operation c : Def.t) :
  let cache := usedFragmentsForFragment run in
  let filePath := default "" (namePathMap ix !! Def.name operation) in
  JSMap.get filePath (compiledNodes run) = None →
  rtc (pushes ix cache) operation c →
  tc (pushes ix cache) c c →
  ∀ fuel, compile_operation fuel ix run operation = Unfinished.
Proof.
  intros cache filePath Hfree Hreach Hcycle fuel.
  unfold compile_operation. fold filePath. rewrite Hfree. fold cache.
  by rewrite (resolve_cycle ix cache filePath fuel [operation] []
                (errors run) operation c (or_introl eq_refl) Hreach Hcycle).
Qed.

Lemma fragment_cycle_never_ends_witness :
  compile_operation (H := Sample.externals) 100
    (merge_all (H := Sample.externals) no_indices Cycle.batch)
    {| compiledNodes := []; errors := [];
       usedFragmentsForFragment := ∅ |}
    Cycle.Q_ping = Unfinished.
Proof.
  refine (fragment_cycle_never_ends (H := Sample.externals)
           (merge_all (H := Sample.externals) no_indices Cycle.batch)
           {| compiledNodes := []; errors := [];
              usedFragmentsForFragment := ∅ |}
           Cycle.Q_ping Cycle.Ping _ _ _ 100).
  - reflexivity.
  - apply rtc_once. vm_compute. by left.
  - apply (tc_l _ _ Cycle.Pong).
    + vm_compute. by left.
    + apply tc_once. vm_compute. by left.
Defined.

(** ** What ends up in a compiled document *)

Lemma JSSet_add_NoDup x s : NoDup s → NoDup (JSSet.add x s).
Proof.
  intros Hs. unfold JSSet.add. destruct (JSSet.has x s) eqn:Hx; [done|].
  apply NoDup_app. repeat split; [done| |apply NoDup_singleton].
  intros y Hy Hy'. apply list_elem_of_In in Hy'. destruct Hy' as [<-|[]].
  apply list_elem_of_In, JSSet_has_In in Hy. congruence.
Qed.

Lemma JSSet_fold_add_NoDup derived s :
  NoDup s → NoDup (fold_left (λ used d, JSSet.add d used) derived s).
Proof.
  revert s. induction derived as [|d derived IH]; intros s Hs; [done|].
  simpl. by apply IH, JSSet_add_NoDup.
Qed.

Section collected.
Variable ix : Indices.
Variable cache : gmap string (list string).
Variable filePath : string.

Lemma use_NoDup used name : NoDup used → NoDup (use ix cache used name).
Proof.
  intros Hused. unfold use. destruct (cache !! name).
  - by apply JSSet_add_NoDup, JSSet_fold_add_NoDup.
  - destruct (JSMap.get name (fragmentMap ix)); [|done].
    by apply JSSet_add_NoDup.
Qed.

Lemma visit_NoDup names used :
  NoDup used → NoDup (fold_left (use ix cache) names used).
Proof.
  revert used. induction names as [|n names IH]; intros used Hused; [done|].
  simpl. by apply IH, use_NoDup.
Qed.

(** What one visit adds. *)
Lemma visit_In names used x :
  In x (fold_left (use ix cache) names used)
  ↔ In x used
    ∨ ∃ s, In s names
           ∧ ((∃ derived, cache !! s = Some derived
                          ∧ (x = s ∨ In x derived))
              ∨ (cache !! s = None
                 ∧ is_Some (JSMap.get s (fragmentMap ix)) ∧ x = s)).
Proof.
  revert used. induction names as [|n names IH]; intros used.
  { simpl. split; [by left|]. by intros [?|(? & [] & _)]. }
  cbn [fold_left]. rewrite IH. clear IH. split.
  - intros [Hx|(s & Hs & Hx)]; [|right; exists s; split; [by right|done]].
    unfold use in Hx. destruct (cache !! n) as [derived|] eqn:Hc.
    + apply JSSet_In_add in Hx as [->|[Hx|Hx]%JSSet_In_fold_add];
        [right|right|by left]; exists n; (split; [by left|]); left;
        exists derived; auto.
    + destruct (JSMap.get n (fragmentMap ix)) eqn:Hg; [|by left].
      apply JSSet_In_add in Hx as [->|Hx]; [|by left].
      right. exists n. split; [by left|]. right. by rewrite Hg.
  - intros [Hx|(s & [<-|Hs] & Hx)].
    + left. unfold use. destruct (cache !! n).
      * apply JSSet_In_add. right. apply JSSet_In_fold_add. by right.
      * destruct (JSMap.get n (fragmentMap ix)); [|done].
        apply JSSet_In_add. by right.
    + left. unfold use.
      destruct Hx as [(derived & -> & Hx)|(-> & [e ->] & ->)].
      * apply JSSet_In_add. destruct Hx as [->|Hx]; [by left|].
        right. apply JSSet_In_fold_add. by left.
      * apply JSSet_In_add. by left.
    + right. by exists s.
Qed.

Lemma pushed_by_In names d' :
  In d' (flat_map (pushed_by ix cache) names)
  ↔ ∃ s entry, In s names ∧ cache !! s = None
               ∧ JSMap.get s (fragmentMap ix) = Some entry
               ∧ d' = Entry.def entry.
Proof.
  split; [apply pushed_by_registered|].
  intros (s & entry & Hs & Hc & Hg & ->). apply in_flat_map.
  exists s. split; [done|]. unfold pushed_by. rewrite Hc, Hg. by left.
Qed.

Lemma resolve_collects fuel stack used errs used' errs' :
  resolve ix cache filePath fuel stack used errs = Returns (used', errs') →
  ∀ x, In x used'
       ↔ In x used ∨ ∃ d, In d stack ∧ reaches ix cache d x.
Proof.
  revert stack used errs.
  induction fuel as [|fuel IH]; intros stack used errs.
  { destruct stack; [|done]. intros [= <- <-] x.
    split; [by left|]. by intros [?|(? & [] & _)]. }
  destruct stack as [|top stack].
  { intros [= <- <-] x. split; [by left|]. by intros [?|(? & [] & _)]. }
  rewrite resolve_step. intros Hres x. rewrite (IH _ _ _ Hres x).
  rewrite visit_In. split.
  - intros [[Hx|(s & Hs & Hx)]|(d & Hd & Hx)].
    + by left.
    + right. exists top. split; [by left|].
      destruct Hx as [(derived & Hc & Hx)|(Hc & [e He] & ->)].
      * by eapply reaches_cached.
      * by eapply reaches_spread.
    + apply in_app_iff in Hd as [Hd|Hd].
      * apply in_rev, pushed_by_In in Hd as (s & e & Hs & Hc & Hg & ->).
        right. exists top. split; [by left|]. by eapply reaches_through.
      * right. exists d. split; [by right|done].
  - intros [Hx|(d & [<-|Hd] & Hx)].
    + left. by left.
    + inversion Hx as [? s derived ? Hs Hc Hd|? s e Hs Hc Hg|? s e ? Hs Hc Hg Hr];
        subst.
      * left. right. exists s. split; [done|]. left. by exists derived.
      * left. right. exists x. split; [done|]. right. by rewrite Hg.
      * right. exists (Entry.def e). split; [|done].
        apply in_app_iff. left. apply in_rev. rewrite rev_involutive.
        apply pushed_by_In. by exists s, e.
    + right. exists d. split; [|done]. apply in_app_iff. by right.
Qed.

Lemma resolve_NoDup fuel stack used errs used' errs' :
  NoDup used →
  resolve ix cache filePath fuel stack used errs = Returns (used', errs') →
  NoDup used'.
Proof.
  revert stack used errs.
  induction fuel as [|fuel IH]; intros stack used errs Hused.
  { destruct stack; [|done]. by intros [= <- <-]. }
  destruct stack as [|top stack].
  { by intros [= <- <-]. }
  rewrite resolve_step. apply IH. by apply visit_NoDup.
Qed.
End collected.

(** What the loop has collected for one operation when it ends. *)
Lemma resolve_operation_collects
    (ix : Indices) (cache : gmap string (list string)) (filePath : string)
    (fuel : nat) (operation : Def.t) (errs : list Diagnostic)
    (usedFragments : JSSet.t) (errs' : list Diagnostic) :
  resolve ix cache filePath fuel [operation] [] errs
    = Returns (usedFragments, errs') →
  NoDup usedFragments
  ∧ ∀ x, In x usedFragments ↔ reaches ix cache operation x.
Proof.
  intros Hres. split.
  - eapply resolve_NoDup; [|exact Hres]. constructor.
  - intros x. rewrite (resolve_collects _ _ _ _ _ _ _ _ _ Hres x). split.
    + by intros [[]|(d & [<-|[]] & Hx)].
    + intros Hx. right. exists operation. split; [by left|done].
Qed.

(** X4.  When the resolution loop ends for an operation, the names it has
    collected are those that the operation reaches through its spreads
    and the spreads of the registered fragments it uses, and each name is
    listed once, also when it is reached on several ways. *)
Theorem resolution_collects_reachable_names
    (ix : Indices) (cache : gmap string (list string)) (filePath : string)
    (fuel : nat) (operation : Def.t) (errs : list Diagnostic)
    (usedFragments : JSSet.t) (errs' : list Diagnostic) :
  resolve ix cache filePath fuel [operation] [] errs
    = Returns (usedFragments, errs') →
  NoDup usedFragments
  ∧ ∀ x, In x usedFragments ↔ reaches ix cache operation x.
Proof.
  intros Hres. split.
  - eapply resolve_NoDup; [|exact Hres]. constructor.
  - intros x. rewrite (resolve_collects _ _ _ _ _ _ _ _ _ Hres x). split.
    + by intros [[]|(d & [<-|[]] & Hx)].
    + intros Hx. right. exists operation. split; [by left|done].
Qed.

Lemma resolution_collects_reachable_names_witness :
  NoDup ["B"; "A"]
  ∧ ∀ x, In x ["B"; "A"]
         ↔ reaches
             (merge_all (H := Sample.externals) no_indices
                Inputs.shared_batch) ∅ Inputs.Page2 x.
Proof.
  apply (resolution_collects_reachable_names
           (merge_all (H := Sample.externals) no_indices
              Inputs.shared_batch) ∅ Inputs.site_b 3 Inputs.Page2 []
           ["B"; "A"] []).
  vm_compute. reflexivity.
Defined.

Section document_facts.
Context `{Externals}.

Lemma fragment_defs_exact fm names defs :
  fragment_defs fm names = Returns defs →
  Forall2 (λ n d, ∃ entry, JSMap.get n fm = Some entry
                           ∧ d = Entry.def entry) names defs.
Proof.
  revert defs. induction names as [|n names IH]; intros defs; simpl.
  - intros [= <-]. constructor.
  - intros (entry & Hn%deref_Returns & Hrest)%bind_Returns.
    apply bind_Returns in Hrest as (rest & Hrest & [= <-]).
    constructor; [by exists entry|by apply IH].
Qed.

Lemma registry_ok_get fm n entry :
  registry_ok fm → JSMap.get n fm = Some entry →
  Def.name (Entry.def entry) = n
  ∧ Def.kind (Entry.def entry) = FRAGMENT_DEFINITION
  ∧ entry = Entry.mk (Entry.def entry) (print (Entry.def entry)).
Proof.
  intros [_ Hall] Hget%JSMap_get_In.
  rewrite List.Forall_forall in Hall.
  destruct (Hall _ Hget) as (Hn & Hk & Ht). simpl in *.
  repeat split; [done|done|]. destruct entry. simpl in *. by rewrite Ht.
Qed.

Lemma merge_files_all_valid_inv ix0 nodes ix :
  merge_files ix0 nodes = Merged ix → all_valid nodes.
Proof.
  revert ix0. induction nodes as [|[f doc] nodes IH]; intros ix0; simpl.
  - constructor.
  - destruct (validate_pre doc) eqn:Hdoc; [|done]. intros Hm.
    constructor; [done|by eapply IH].
Qed.

Lemma merge_files_Abandoned ix0 nodes ix reported :
  merge_files ix0 nodes = Abandoned ix reported →
  ∃ f doc, In (f, doc) nodes ∧ validate_pre doc ≠ []
           ∧ reported = map (StructuralError f) (validate_pre doc).
Proof.
  revert ix0. induction nodes as [|[f doc] nodes IH]; intros ix0; simpl.
  - done.
  - destruct (validate_pre doc) as [|m msgs] eqn:Hdoc.
    + intros (f' & doc' & Hin & Hne & ->)%IH. exists f', doc'.
      split; [by right|done].
    + intros [= _ <-]. exists f, doc. rewrite Hdoc.
      split; [by left|done].
Qed.

Lemma filter_duplicate_roots_added filePath errs added :
  Forall (λ e, ∃ n c, e = Error85908 filePath n c) added →
  List.filter is_duplicate_root (errs ++ added)
    = List.filter is_duplicate_root errs.
Proof.
  intros Hadded. rewrite List.filter_app.
  rewrite <- (app_nil_r (List.filter _ errs)) at 2. f_equal.
  induction Hadded as [|e added (n & c & ->) _ IH]; [done|]. apply IH.
Qed.

(** Each iteration either files one query or reports one duplicate
    root. *)
Lemma compile_operations_count fuel ix run ops run' :
  compile_operations fuel ix run ops = Returns run' →
  List.length (compiledNodes run')
    + List.length (List.filter is_duplicate_root (errors run'))
  = List.length (compiledNodes run)
    + List.length (List.filter is_duplicate_root (errors run))
    + List.length ops.
Proof.
  revert run. induction ops as [|op ops IH]; intros run; simpl.
  - intros [= <-]. lia.
  - intros (run1 & Hstep & Hrest)%bind_Returns. rewrite (IH _ Hrest).
    apply compile_operation_Returns in Hstep
      as [(other & _ & ->)|(_ & u & e & defs & d & Hres & _ & _ & ->)];
      cbn [compiledNodes errors add_error].
    + rewrite List.filter_app, !length_app. simpl. lia.
    + apply resolve_errors in Hres as (added & -> & Hadded).
      rewrite (filter_duplicate_roots_added _ _ _ Hadded), length_app.
      simpl. lia.
Qed.

Lemma global_errors_per_operation_free ix :
  List.filter is_duplicate_root (global_errors ix) = [].
Proof.
  unfold global_errors.
  induction (validate_main (globalDoc ix)) as [|e l IH]; [done|]. apply IH.
Qed.

Lemma compile_operations_errors fuel ix run ops run' :
  compile_operations fuel ix run ops = Returns run' →
  ∃ rest, errors run' = errors run ++ rest ∧ Forall per_operation rest.
Proof.
  revert run. induction ops as [|op ops IH]; intros run; simpl.
  - intros [= <-]. exists []. by rewrite app_nil_r.
  - intros (run1 & Hstep & (rest & -> & Hrest)%IH)%bind_Returns.
    apply compile_operation_Returns in Hstep
      as [(other & _ & ->)|(_ & u & e & defs & d & Hres & _ & _ & ->)];
      cbn [errors add_error].
    + eexists. rewrite <- app_assoc. split; [done|].
      apply Forall_app. split; [by repeat constructor|done].
    + apply resolve_errors in Hres as (added & -> & Hadded).
      eexists. rewrite <- app_assoc. split; [done|].
      apply Forall_app. split; [|done].
      eapply Forall_impl; [exact Hadded|]. by intros ? (? & ? & ->).
Qed.
End document_facts.

(** X5.  Every compiled query belongs to an operation of the batch and is
    filed under the path indexed for its name.  Its text is the printed
    document made of fragment definitions followed by the operation;
    these are the registered definitions of the names the operation
    reaches, each name once. *)
Theorem compiled_document_holds_reachable_fragments `{Externals}
    (fuel : nat) (nodes : list (string * list Def.t))
    (compiled : JSMap.t Query.t) (errs : list Diagnostic)
    (p : string) (q : Query.t) :
  write fuel nodes = Returns (compiled, errs) →
  In (p, q) compiled →
  let ix := merge_all no_indices nodes in
  ∃ operation defs,
    In operation (operationDefinitions ix)
    ∧ Query.name q = Def.name operation
    ∧ namePathMap ix !! Def.name operation = Some p
    ∧ Query.text q = print_document (defs ++ [operation])
    ∧ NoDup (map Def.name defs)
    ∧ (∀ d, In d defs →
            JSMap.get (Def.name d) (fragmentMap ix)
              = Some (Entry.mk d (print d)))
    ∧ (∀ x, In x (map Def.name defs) ↔ reaches ix ∅ operation x).
Proof.
  intros Hw Hin ix. unfold write, write_run in Hw.
  apply bind_Returns in Hw as (run & Hrun & [= <- <-]).
  destruct (merge_files no_indices nodes) as [ix'|ix' reported] eqn:Hm.
  2:{ injection Hrun as <-. destruct Hin. }
  apply merge_files_Merged in Hm as ->. fold ix in Hrun.
  assert (registry_ok (fragmentMap ix)) as Hreg.
  { apply merge_all_registry. split; constructor. }
  revert p q Hin.
  refine (proj2 (compile_operations_invariant
    (λ r, usedFragmentsForFragment r = ∅
          ∧ ∀ p q, In (p, q) (compiledNodes r) → _)
    fuel ix _ _ run _ _ Hrun)); [|split; [done|by intros ? ? []]].
  intros r op r' Hop [Hcache Hr] Hstep.
  split; [apply compile_operation_cache in Hstep; congruence|].
  apply compile_operation_Returns in Hstep
    as [(other & _ & ->)|(_ & used & e & defs & d & Hres & Hdefs & Hd & ->)];
    [exact Hr|].
  cbn [compiledNodes]. intros p q [Hin|[[= <- <-]|[]]]%in_app_iff;
    [by apply Hr|].
  rewrite Hcache in Hres.
  destruct (resolve_operation_collects _ _ _ _ _ _ _ _ Hres)
    as [Hnodup Hreach].
  apply fragment_defs_exact in Hdefs.
  assert (map Def.name defs = used
          ∧ ∀ d', In d' defs →
                  JSMap.get (Def.name d') (fragmentMap ix)
                    = Some (Entry.mk d' (print d'))) as [Hnames Hentries].
  { clear -Hdefs Hreg. induction Hdefs as [|n d' used defs (en & Hn & ->) _ IH].
    - split; [done|by intros ? []].
    - destruct IH as [IH1 IH2].
      destruct (registry_ok_get _ _ _ Hreg Hn) as (Hname & _ & Heq).
      split; [simpl; by rewrite Hname, IH1|].
      intros d' [<-|Hd']; [|by apply IH2]. by rewrite Hname, Hn, Heq at 1. }
  destruct (operations_are_indexed nodes op Hop) as [[p' Hp'] _].
  fold ix in Hp'. exists op, defs. rewrite Hp'. cbn [default from_option id].
  rewrite Hnames. by split_and!.
Qed.

Lemma compiled_document_holds_reachable_fragments_witness :
  ∃ operation defs,
    In operation
      (operationDefinitions
         (merge_all (H := Sample.externals) no_indices Inputs.shared_batch))
    ∧ Query.name (Inputs.compiled_page "Page2" Inputs.site_b)
        = Def.name operation
    ∧ namePathMap
        (merge_all (H := Sample.externals) no_indices Inputs.shared_batch)
        !! Def.name operation = Some Inputs.site_b
    ∧ Query.text (Inputs.compiled_page "Page2" Inputs.site_b)
        = print_document (H := Sample.externals) (defs ++ [operation])
    ∧ NoDup (map Def.name defs)
    ∧ (∀ d, In d defs →
            JSMap.get (Def.name d)
              (fragmentMap
                 (merge_all (H := Sample.externals) no_indices
                    Inputs.shared_batch))
              = Some (Entry.mk d (print (Externals := Sample.externals) d)))
    ∧ (∀ x, In x (map Def.name defs)
            ↔ reaches
                (merge_all (H := Sample.externals) no_indices
                   Inputs.shared_batch) ∅ operation x).
Proof.
  apply (compiled_document_holds_reachable_fragments
           (H := Sample.externals) 3 Inputs.shared_batch
           [(Inputs.site_a, Inputs.compiled_page "Page1" Inputs.site_a);
            (Inputs.site_b, Inputs.compiled_page "Page2" Inputs.site_b)]
           [] Inputs.site_b (Inputs.compiled_page "Page2" Inputs.site_b)).
  - vm_compute. reflexivity.
  - right. by left.
Defined.

(** X6.  In a batch that passes the structural rules, every operation is
    accounted for: the number of compiled queries and the number of
    duplicate-root diagnostics add up to the number of operations. *)
Theorem operations_compiled_or_rejected `{Externals}
    (fuel : nat) (nodes : list (string * list Def.t))
    (compiled : JSMap.t Query.t) (errs : list Diagnostic) :
  all_valid nodes →
  write fuel nodes = Returns (compiled, errs) →
  List.length compiled + List.length (List.filter is_duplicate_root errs)
  = List.length (flat_map (λ n, List.filter is_operation n.2) nodes).
Proof.
  intros Hvalid. unfold write, write_run.
  rewrite merge_files_all_valid by done.
  intros (run & Hrun & [= <- <-])%bind_Returns.
  apply compile_operations_count in Hrun. rewrite Hrun.
  cbn [compiledNodes errors]. rewrite global_errors_per_operation_free.
  by rewrite operations_of_merge.
Qed.

Lemma operations_compiled_or_rejected_witness :
  List.length [(Inputs.site_a,
                make_query (H := Sample.externals) "Q1" Inputs.site_a
                  [Inputs.Q1] Inputs.Q1)]
  + List.length
      (List.filter is_duplicate_root
         [MultipleRootQueriesError Inputs.site_a
            (Some Inputs.Q2) (Some Inputs.Q1)])
  = List.length
      (flat_map (λ n, List.filter is_operation n.2) Inputs.two_roots_batch).
Proof.
  apply (operations_compiled_or_rejected (H := Sample.externals) 1
           Inputs.two_roots_batch).
  - repeat constructor.
  - vm_compute. reflexivity.
Defined.

(** X7.  What [write] reports is of one of two kinds.  Either a file
    broke a structural rule: then the diagnostics are the violations of
    that one file and no query is returned.  Or every file passed: then
    the diagnostics of the merged document come first, followed only by
    duplicate-root and undefined-fragment diagnostics. *)
Theorem diagnostics_are_structural_or_per_operation `{Externals}
    (fuel : nat) (nodes : list (string * list Def.t))
    (compiled : JSMap.t Query.t) (errs : list Diagnostic) :
  write fuel nodes = Returns (compiled, errs) →
  (compiled = []
   ∧ ∃ f doc, In (f, doc) nodes ∧ validate_pre doc ≠ []
              ∧ errs = map (StructuralError f) (validate_pre doc))
  ∨ (all_valid nodes
     ∧ ∃ rest,
         errs = global_errors (merge_all no_indices nodes) ++ rest
         ∧ Forall per_operation rest).
Proof.
  unfold write, write_run.
  intros (run & Hrun & [= <- <-])%bind_Returns.
  destruct (merge_files no_indices nodes) as [ix|ix reported] eqn:Hm.
  - right. split; [by eapply merge_files_all_valid_inv|].
    apply merge_files_Merged in Hm as ->.
    by apply compile_operations_errors in Hrun.
  - left. injection Hrun as <-. split; [done|].
    by eapply merge_files_Abandoned.
Qed.

Lemma diagnostics_are_structural_or_per_operation_witness :
  ([] = ([] : JSMap.t Query.t)
   ∧ ∃ f doc,
       In (f, doc) [(Inputs.site_b, [Inputs.Q_broken])]
       ∧ validate_pre (Externals := Sample.externals) doc ≠ []
       ∧ [StructuralError Inputs.site_b "Cannot query field __broken"]
         = map (StructuralError f)
             (validate_pre (Externals := Sample.externals) doc))
  ∨ (all_valid (H := Sample.externals) [(Inputs.site_b, [Inputs.Q_broken])]
     ∧ ∃ rest,
         [StructuralError Inputs.site_b "Cannot query field __broken"]
         = global_errors (H := Sample.externals)
             (merge_all (H := Sample.externals) no_indices
                [(Inputs.site_b, [Inputs.Q_broken])]) ++ rest
         ∧ Forall per_operation rest).
Proof.
  apply (diagnostics_are_structural_or_per_operation
           (H := Sample.externals) 0 [(Inputs.site_b, [Inputs.Q_broken])]).
  vm_compute. reflexivity.
Defined.

(** X8.  A batch without operations - fragment files only, or no file at
    all - yields no query, and no iteration of the inner loop is needed
    for that. *)
Theorem no_operations_no_queries `{Externals}
    (fuel : nat) (nodes : list (string * list Def.t)) :
  (∀ n, In n nodes → List.filter is_operation n.2 = []) →
  ∃ errs, write fuel nodes = Returns ([], errs).
Proof.
  intros Hnone. unfold write, write_run.
  destruct (merge_files no_indices nodes) as [ix|ix reported] eqn:Hm.
  - apply merge_files_Merged in Hm as ->. rewrite operations_of_merge.
    replace (flat_map _ nodes) with (@nil Def.t); [by eexists|].
    symmetry. clear -Hnone. induction nodes as [|n nodes IH]; [done|].
    simpl. rewrite (Hnone n) by (by left). apply IH.
    intros n' Hn'. apply Hnone. by right.
  - by eexists.
Qed.

Lemma no_operations_no_queries_witness :
  ∃ errs,
    write (H := Sample.externals) 0
      [(Inputs.site_a, [Inputs.A; Inputs.B]); (Inputs.site_b, [])]
    = Returns ([], errs).
Proof.
  apply (no_operations_no_queries (H := Sample.externals)).
  intros n [<-|[<-|[]]]; reflexivity.
Defined.

(** ** The registry and the operation list after the merge *)

Section registry_contents.
Context `{Externals}.

Lemma keep_definition_get n fm d :
  JSMap.get n (keep_definition fm d).2
    = match JSMap.get n fm with
      | Some entry => Some entry
      | None =>
          if negb (is_operation d) && String.eqb (Def.name d) n
          then Some (Entry.mk d (print d)) else None
      end.
Proof.
  unfold keep_definition, is_operation.
  destruct (Def.kind d) eqn:Hk; simpl.
  { by destruct (JSMap.get n fm). }
  destruct (JSMap.get (Def.name d) fm) as [e|] eqn:Hd.
  - destruct (String.eqb _ (Entry.text e)); simpl;
      destruct (String.eqb_spec (Def.name d) n) as [Heq|];
      rewrite <- ?Heq, ?Hd; by destruct (JSMap.get n fm).
  - simpl. destruct (String.eqb_spec (Def.name d) n) as [Heq|Hne].
    + by rewrite <- Heq, JSMap_get_set_eq, Hd.
    + rewrite JSMap_get_set_ne by done. by destruct (JSMap.get n fm).
Qed.

Lemma filter_definitions_get n fm definitions :
  JSMap.get n (filter_definitions fm definitions).2
    = match JSMap.get n fm with
      | Some entry => Some entry
      | None =>
          option_map (λ d, Entry.mk d (print d))
            (first_fragment n definitions)
      end.
Proof.
  revert fm. induction definitions as [|d rest IH]; intros fm.
  { simpl. by destruct (JSMap.get n fm). }
  simpl. pose proof (keep_definition_get n fm d) as Hk.
  destruct (keep_definition fm d) as [keep fm1]. simpl in Hk.
  specialize (IH fm1). destruct (filter_definitions fm1 rest) as [kept fm2].
  simpl in *. rewrite IH, Hk. unfold first_fragment. simpl.
  destruct (JSMap.get n fm); [done|].
  by destruct (negb (is_operation d) && String.eqb (Def.name d) n).
Qed.

Lemma merge_all_get n ix nodes :
  JSMap.get n (fragmentMap (merge_all ix nodes))
    = match JSMap.get n (fragmentMap ix) with
      | Some entry => Some entry
      | None =>
          option_map (λ d, Entry.mk d (print d))
            (first_fragment n (flat_map snd nodes))
      end.
Proof.
  revert ix. induction nodes as [|[f doc] nodes IH]; intros ix.
  { simpl. by destruct (JSMap.get n (fragmentMap ix)). }
  cbn [merge_all fold_left flat_map fst snd].
  fold (merge_all (merge_file ix f doc) nodes).
  rewrite IH, merge_file_fragmentMap, filter_definitions_get.
  unfold first_fragment. rewrite find_app.
  destruct (JSMap.get n (fragmentMap ix)); [done|].
  by destruct (find _ doc).
Qed.
End registry_contents.

(** X9.  First writer wins, exactly: after the merge loop the registry
    holds, under each name, the first fragment definition of that name
    in the order of the batch, with its printed text, and nothing under
    a name that no fragment definition bears. *)
Theorem registry_holds_first_definitions `{Externals}
    (nodes : list (string * list Def.t)) (ix : Indices) (n : string) :
  merge_files no_indices nodes = Merged ix →
  JSMap.get n (fragmentMap ix)
    = option_map (λ d, Entry.mk d (print d))
        (first_fragment n (flat_map snd nodes)).
Proof. intros ->%merge_files_Merged. by rewrite merge_all_get. Qed.

Lemma registry_holds_first_definitions_witness :
  JSMap.get "F"
    (fragmentMap
       (merge_all (H := Sample.externals) no_indices Inputs.thrice_batch))
  = option_map
      (λ d, Entry.mk d (print (Externals := Sample.externals) d))
      (first_fragment "F" (flat_map snd Inputs.thrice_batch)).
Proof.
  apply (registry_holds_first_definitions (H := Sample.externals)
           Inputs.thrice_batch).
  vm_compute. reflexivity.
Defined.

(** X10.  The operation list holds every operation of every file, none
    filtered out, in the order of the files and, within a file, of its
    definitions. *)
Theorem operations_keep_batch_order `{Externals}
    (nodes : list (string * list Def.t)) (ix : Indices) :
  merge_files no_indices nodes = Merged ix →
  operationDefinitions ix
    = flat_map (λ n, List.filter is_operation n.2) nodes.
Proof. intros ->%merge_files_Merged. apply operations_of_merge. Qed.

Lemma operations_keep_batch_order_witness :
  operationDefinitions
    (merge_all (H := Sample.externals) no_indices Inputs.three_files_batch)
  = flat_map (λ n, List.filter is_operation n.2) Inputs.three_files_batch.
Proof.
  apply (operations_keep_batch_order (H := Sample.externals)
           Inputs.three_files_batch).
  vm_compute. reflexivity.
Defined.

(** ** The rules on the merged document do not gate compilation *)

Section errors_irrelevant.
Context `{Externals}.

Lemma twin_registry_refl fm : twin_registry "" fm fm.
Proof.
  induction fm as [|[k e] fm IH]; constructor; [|done].
  repeat split. apply twin_refl.
Qed.

Lemma compile_operation_errors_irrelevant fuel ix run run' op :
  twin_runs run run' →
  outcome_rel twin_runs
    (compile_operation fuel ix run op) (compile_operation fuel ix run' op).
Proof.
  intros [Hnodes Hcache]. unfold compile_operation.
  rewrite <- Hnodes, <- Hcache.
  destruct (JSMap.get _ (compiledNodes run)); [done|].
  assert (Forall2 (twin "") [op] [op]) as Hop
    by (constructor; [apply twin_refl|constructor]).
  pose proof (resolve_twin "" ix ix (usedFragmentsForFragment run)
                (default "" (namePathMap ix !! Def.name op))
                (twin_registry_refl _) fuel
                [op] [op] [] (errors run) (errors run') Hop) as Hres.
  destruct (resolve ix _ _ fuel [op] [] (errors run)) as [[used errs]| |],
           (resolve ix _ _ fuel [op] [] (errors run')) as [[used' errs']| |];
    try done.
  simpl in Hres. subst used'. cbn [bind].
  destruct (fragment_defs (fragmentMap ix) used); try done. cbn [bind].
  by destruct (nameDefMap ix !! Def.name op).
Qed.

Lemma compile_operations_errors_irrelevant fuel ix run run' ops :
  twin_runs run run' →
  outcome_rel twin_runs
    (compile_operations fuel ix run ops)
    (compile_operations fuel ix run' ops).
Proof.
  revert run run'. induction ops as [|op ops IH]; intros run run' Hrun;
    [done|].
  simpl.
  pose proof (compile_operation_errors_irrelevant fuel ix run run' op Hrun)
    as Hstep.
  destruct (compile_operation fuel ix run op),
           (compile_operation fuel ix run' op); try done.
  simpl. by apply IH.
Qed.
End errors_irrelevant.

Lemma merge_files_same_compiler (E1 E2 : Externals) ix nodes :
  same_compiler E1 E2 →
  merge_files (H := E1) ix nodes = merge_files (H := E2) ix nodes.
Proof.
  intros (Hprint & Hpre & _).
  assert (∀ fm defs, filter_definitions (H := E1) fm defs
                     = filter_definitions (H := E2) fm defs) as Hfilter.
  { intros fm defs. revert fm. induction defs as [|d defs IH]; intros fm;
      [done|].
    simpl. unfold keep_definition. rewrite Hprint.
    destruct (Def.kind d); [by rewrite IH|].
    destruct (JSMap.get (Def.name d) fm); [|by rewrite IH].
    destruct (String.eqb _ _); by rewrite IH. }
  revert ix. induction nodes as [|[f doc] nodes IH]; intros ix; [done|].
  simpl. rewrite Hpre. destruct (@validate_pre E2 doc); [|done].
  unfold merge_file. by rewrite Hfilter, IH.
Qed.

Lemma compile_operations_same_compiler (E1 E2 : Externals) fuel ix run ops :
  same_compiler E1 E2 →
  compile_operations (H := E1) fuel ix run ops
    = compile_operations (H := E2) fuel ix run ops.
Proof.
  intros (Hprint & _ & Hkebab & Hrel & Hdir).
  revert run. induction ops as [|op ops IH]; intros run; [done|].
  simpl.
  assert (compile_operation (H := E1) fuel ix run op
          = compile_operation (H := E2) fuel ix run op) as ->.
  { unfold compile_operation, make_query, print_document, static_query_id.
    by rewrite Hprint, Hkebab, Hrel, Hdir. }
  destruct (compile_operation (H := E2) fuel ix run op); simpl; auto.
Qed.

(** X11.  The rules applied to the merged document only report: two
    environments that differ in nothing but those rules (and in the
    attribution of their errors) return the same map of compiled
    queries for every batch. *)
Theorem global_validation_does_not_gate (E1 E2 : Externals)
    (fuel : nat) (nodes : list (string * list Def.t)) :
  same_compiler E1 E2 →
  outcome_map fst (write (H := E1) fuel nodes)
    = outcome_map fst (write (H := E2) fuel nodes).
Proof.
  intros Hsame. unfold write, write_run.
  rewrite (merge_files_same_compiler E1 E2 _ _ Hsame).
  destruct (merge_files (H := E2) no_indices nodes) as [ix|ix reported];
    [|done].
  rewrite (compile_operations_same_compiler E1 E2 _ _ _ _ Hsame).
  pose proof (compile_operations_errors_irrelevant (H := E2) fuel ix
    {| compiledNodes := []; errors := global_errors (H := E1) ix;
       usedFragmentsForFragment := ∅ |}
    {| compiledNodes := []; errors := global_errors (H := E2) ix;
       usedFragmentsForFragment := ∅ |}
    (operationDefinitions ix) (conj eq_refl eq_refl)) as Hrun.
  destruct (compile_operations (H := E2) fuel ix _ _),
           (compile_operations (H := E2) fuel ix _ _); simpl in *; try done.
  by destruct Hrun as [-> _].
Qed.

Lemma global_validation_does_not_gate_witness :
  outcome_map fst (write (H := Sample.externals) 2 Inputs.conflict_batch)
  = outcome_map fst (write (H := Strict.externals) 2 Inputs.conflict_batch).
Proof.
  apply (global_validation_does_not_gate Sample.externals Strict.externals).
  by repeat split.
Defined.

(** ** The files handed to the parser *)

Lemma append_String a p s : String a p +:+ s = String a (p +:+ s).
Proof. reflexivity. Qed.

Lemma substring_all d : String.substring 0 (String.length d) d = d.
Proof. induction d as [|a d IH]; simpl; [done|]. by rewrite IH. Qed.

Lemma substring_split k d :
  k ≤ String.length d →
  d = String.substring 0 k d
        +:+ String.substring k (String.length d - k) d.
Proof.
  revert k. induction d as [|a d IH]; intros k Hk.
  - by destruct k.
  - destruct k as [|k].
    + simpl. by rewrite substring_all.
    + simpl in Hk. cbn [String.substring String.length Nat.sub].
      rewrite append_String. f_equal. apply IH. lia.
Qed.

Lemma substring_tail p s :
  String.substring (String.length p) (String.length s) (p +:+ s) = s.
Proof.
  induction p; [apply substring_all|].
  by rewrite append_String.
Qed.

Lemma length_append p s :
  String.length (p +:+ s) = String.length p + String.length s.
Proof.
  induction p as [|a p IH]; [done|].
  rewrite append_String. simpl. by rewrite IH.
Qed.

(** [/\.d\.ts$/] matches the paths that end in [.d.ts]. *)
Lemma ends_with_d_ts_spec d :
  ends_with_d_ts d = true ↔ ∃ p, d = p +:+ ".d.ts".
Proof.
  unfold ends_with_d_ts. rewrite andb_true_iff, Nat.leb_le, String.eqb_eq.
  split.
  - intros [Hlen Hsub]. exists (String.substring 0 (String.length d - 5) d).
    pose proof (substring_split (String.length d - 5) d) as Hsplit.
    replace (String.length d - (String.length d - 5)) with 5 in Hsplit
      by lia.
    rewrite Hsub in Hsplit. apply Hsplit. lia.
  - intros [p ->]. rewrite length_append. simpl. split; [lia|].
    replace (String.length p + 5 - 5) with (String.length p) by lia.
    apply (substring_tail p ".d.ts").
Qed.

Lemma In_uniq x array : In x (lodash.uniq array) ↔ In x array.
Proof.
  unfold lodash.uniq. rewrite JSSet_In_fold_add. simpl. tauto.
Qed.

Lemma resolveThemes_map themes :
  resolveThemes (Some themes) = map Theme.themeDir themes.
Proof.
  unfold resolveThemes. cbn [default from_option id].
  enough (∀ merged,
    fold_left (λ merged theme, merged ++ [Theme.themeDir theme])
      themes merged = merged ++ map Theme.themeDir themes) as Hfold
    by apply (Hfold []).
  induction themes as [|t themes IH]; intros merged; simpl.
  - by rewrite app_nil_r.
  - by rewrite IH, <- app_assoc.
Qed.

Section files_facts.
Context `{Host}.

Lemma In_globbed g fl merged :
  In g (fold_left
          (λ merged folderPath,
             merged ++ glob_sync (path_join [folderPath; pathRegex]))
          fl merged)
  ↔ In g merged
    ∨ ∃ folder, In folder fl
        ∧ In g (glob_sync (path_join [folder; pathRegex])).
Proof.
  revert merged. induction fl as [|f fl IH]; intros merged; simpl.
  - split; [auto|]. by intros [|(? & [] & _)].
  - rewrite IH, in_app_iff. split.
    + intros [[|]|(folder & ? & ?)]; eauto 6.
    + intros [|(folder & [<-|] & ?)]; eauto 6.
Qed.

Lemma In_parseEverything_files this x :
  In x (parseEverything_files this)
  ↔ (∃ folder g, In folder (folders this)
       ∧ In g (glob_sync (path_join [folder; pathRegex]))
       ∧ ends_with_d_ts g = false ∧ normalize g = x)
    ∨ (∃ c, In c components ∧ normalize c = x).
Proof.
  unfold parseEverything_files. rewrite In_uniq, in_app_iff, !in_map_iff.
  split.
  - intros [(g & <- & [Hg Hd]%filter_In)|(c & <- & Hc)]; [left|right; eauto].
    apply In_globbed in Hg as [[]|(folder & Hfolder & Hg)].
    apply negb_true_iff in Hd. eauto 8.
  - intros [(folder & g & Hfolder & Hg & Hd & <-)|(c & Hc & <-)];
      [left|right; eauto].
    exists g. split; [done|]. apply filter_In. split.
    + apply In_globbed. eauto.
    + by apply negb_true_iff.
Qed.

(** X12.  The files handed to the parser are the normalized paths of
    the files found under a searched folder whose path does not end in
    [.d.ts], and the normalized paths of the registered page components;
    no other. *)
Theorem parsed_files_are_found_or_components (this : Runner.t) (x : string) :
  In x (parseEverything_files this)
  ↔ (∃ folder g, In folder (folders this)
       ∧ In g (glob_sync (path_join [folder; pathRegex]))
       ∧ (¬ ∃ p, g = p +:+ ".d.ts") ∧ normalize g = x)
    ∨ (∃ c, In c components ∧ normalize c = x).
Proof.
  rewrite In_parseEverything_files.
  assert (∀ g, ends_with_d_ts g = false ↔ ¬ ∃ p, g = p +:+ ".d.ts") as Hd.
  { intros g. rewrite <- ends_with_d_ts_spec. by destruct (ends_with_d_ts g). }
  split.
  - intros [(folder & g & ? & ? & ?%Hd & ?)|?]; [left|by right].
    by exists folder, g.
  - intros [(folder & g & ? & ? & ?%Hd & ?)|?]; [left|by right].
    by exists folder, g.
Qed.

(** X13.  No path is handed to the parser twice, also when a page
    component lies under a searched folder or a folder is searched
    twice. *)
Theorem parsed_files_are_distinct (this : Runner.t) :
  NoDup (parseEverything_files this).
Proof.
  unfold parseEverything_files, lodash.uniq.
  apply JSSet_fold_add_NoDup, NoDup_nil_2.
Qed.

(** X14.  A registered page component is always handed to the parser:
    the filter on [.d.ts] is applied to the files found by the search
    only, before the components are added. *)
Theorem components_are_always_parsed (this : Runner.t) (c : string) :
  In c components → In (normalize c) (parseEverything_files this).
Proof. intros Hc. apply In_parseEverything_files. right. by exists c. Qed.

(** X15.  A path is not handed to the parser when no registered
    component is normalized to it and every file found by the search
    that is normalized to it ends in [.d.ts]. *)
Theorem found_declaration_files_are_skipped (this : Runner.t) (x : string) :
  (∀ c, In c components → normalize c ≠ x) →
  (∀ folder g,
     In folder (folders this) →
     In g (glob_sync (path_join [folder; pathRegex])) →
     normalize g = x →
     ∃ p, g = p +:+ ".d.ts") →
  ¬ In x (parseEverything_files this).
Proof.
  intros Hc Hg [(folder & g & Hfolder & Hfound & Hd & Hx)|(c & ? & ?)]%In_parseEverything_files.
  - specialize (Hg folder g Hfolder Hfound Hx).
    apply ends_with_d_ts_spec in Hg. congruence.
  - by apply (Hc c).
Qed.

(** X16.  The runner of [compile] searches the [src] folder and the
    fragments of the cache of the program's directory, then the [src]
    folder of every theme or, when the state has no themes, of every
    plugin, then the modules that depend on gatsby, in this order. *)
Theorem compile_searches_theme_sources (directory : string)
    (themes : option (list Theme.t)) (flattenedPlugins : list Plugin.t) :
  folders (compile_runner directory themes flattenedPlugins)
  = [path_join [directory; "src"];
     path_join [directory; ".cache"; "fragments"]]
    ++ map (λ dir, path_join [dir; "src"])
         match themes with
         | Some themes => map Theme.themeDir themes
         | None => map Plugin.pluginFilepath flattenedPlugins
         end
    ++ modulesThatUseGatsby.
Proof.
  unfold folders, compile_runner. cbn [Runner.base Runner.additional].
  rewrite resolveThemes_map. destruct themes; [done|].
  by rewrite !map_map.
Qed.
End files_facts.

Lemma components_are_always_parsed_witness :
  In "/site/plugin/page.d.ts"
    (parseEverything_files (H := Disk.host) Disk.runner).
Proof.
  apply (components_are_always_parsed (H := Disk.host) Disk.runner
           "/site/plugin/page.d.ts").
  simpl. by left.
Defined.

Lemma found_declaration_files_are_skipped_witness :
  ¬ In "/site/src/types.d.ts"
      (parseEverything_files (H := Disk.tidy_host) Disk.runner).
Proof.
  apply (found_declaration_files_are_skipped (H := Disk.tidy_host)
           Disk.runner "/site/src/types.d.ts").
  - intros c [<-|[<-|[]]]; discriminate.
  - intros folder g [<-|[<-|[]]] Hg Hx; [|destruct Hg].
    cbn in Hg. destruct Hg as [<-|[<-|[<-|[]]]]; try discriminate Hx.
    by exists "/site/src/types".
Defined.

(** X17.  [resolveThemes] returns the directory of every theme, in the
    order of the themes, and the empty list when it is given none. *)
Theorem resolveThemes_lists_directories (themes : option (list Theme.t)) :
  resolveThemes themes = map Theme.themeDir (default [] themes).
Proof.
  destruct themes as [themes|]; [apply resolveThemes_map|done].
Qed.

(** ** One query for every file *)

Section roots.
Context `{Externals}.

(** Once a file has its query, every further operation of the file is
    answered with a diagnostic and nothing else. *)
Lemma compile_operations_same_file fuel ix f q op1 ops run run' :
  (∀ op, In op ops →
         namePathMap ix !! Def.name op = Some f
         ∧ nameDefMap ix !! Def.name op = Some op) →
  JSMap.get f (compiledNodes run) = Some q →
  nameDefMap ix !! Query.name q = Some op1 →
  compile_operations fuel ix run ops = Returns run' →
  compiledNodes run' = compiledNodes run
  ∧ errors run'
    = errors run
        ++ map (λ op, MultipleRootQueriesError f (Some op) (Some op1)) ops
  ∧ usedFragmentsForFragment run' = usedFragmentsForFragment run.
Proof.
  revert run. induction ops as [|op ops IH]; intros run Hops Hq Hop1.
  { intros [= <-]. by rewrite app_nil_r. }
  cbn [compile_operations]. intros (run1 & H1 & Hrest)%bind_Returns.
  destruct (Hops op (or_introl eq_refl)) as [Hpath Hdef].
  apply compile_operation_Returns in H1. rewrite Hpath in H1.
  cbn [from_option id] in H1. rewrite Hq in H1.
  destruct H1 as [(other & [= <-] & ->)|(? & _)]; [|done].
  apply IH in Hrest as (-> & -> & ->); [|by intros; apply Hops; right|done..].
  cbn [add_error compiledNodes errors usedFragmentsForFragment].
  rewrite Hdef, Hop1, <- app_assoc. done.
Qed.
End roots.

(** X18.  One query for every file.  In a batch that passes the
    structural rules and in which no other definition bears the name of
    an operation, a file without operations gets no query; a file with
    operations gets the query of its first operation, and one
    duplicate-root diagnostic for each of its further operations, in
    their order, each naming the first operation. *)
Theorem first_operation_of_a_file_is_compiled `{Externals}
    (fuel : nat) (nodes : list (string * list Def.t))
    (compiled : JSMap.t Query.t) (errs : list Diagnostic)
    (f : string) (doc : list Def.t) :
  all_valid nodes →
  NoDup (map fst nodes) →
  operation_names_unique nodes →
  write fuel nodes = Returns (compiled, errs) →
  In (f, doc) nodes →
  match List.filter is_operation doc with
  | [] =>
      JSMap.get f compiled = None
      ∧ List.filter (duplicate_root_of f) errs = []
  | op1 :: rest =>
      (∃ defs,
         JSMap.get f compiled
           = Some (make_query (Def.name op1) f (defs ++ [op1]) op1))
      ∧ List.filter (duplicate_root_of f) errs
        = map (λ op, MultipleRootQueriesError f (Some op) (Some op1)) rest
  end.
Proof.
  intros Hvalid Hfiles Hunique Hw Hin.
  set (ix := merge_all no_indices nodes) in *.
  assert (∀ g d op, In (g, d) nodes → In op (List.filter is_operation d) →
            namePathMap ix !! Def.name op = Some g
            ∧ nameDefMap ix !! Def.name op = Some op) as Hlookup.
  { intros g d op Hg [Hop Hkind%bool_decide_eq_true]%filter_In.
    apply operation_lookup; [done| |done].
    apply in_flat_map. exists (g, d). split; [done|]. by apply in_map. }
  destruct (in_split _ _ Hin) as (pre & post & Hnodes).
  assert (∀ g d, In (g, d) (pre ++ post) → g ≠ f) as Hother.
  { intros g d Hgd ->. rewrite Hnodes, map_app in Hfiles. simpl in Hfiles.
    apply NoDup_app in Hfiles as (_ & Hpre & [Hpost _]%NoDup_cons).
    apply in_app_iff in Hgd as [Hgd|Hgd].
    - apply (Hpre f); [|by left].
      apply list_elem_of_In. by apply (in_map fst _ (f, d)).
    - apply Hpost. apply list_elem_of_In. by apply (in_map fst _ (f, d)). }
  assert (∀ part, (∀ n, In n part → In n (pre ++ post)) →
            ∀ op, In op (flat_map (λ n, List.filter is_operation n.2) part) →
                  ∃ g, namePathMap ix !! Def.name op = Some g ∧ g ≠ f)
    as Hparts.
  { intros part Hpart op ([g d] & Hgd & Hop)%in_flat_map.
    exists g. split; [|by eapply Hother, Hpart].
    apply (Hlookup g d); [|done].
    rewrite Hnodes. apply Hpart in Hgd.
    apply in_app_iff in Hgd as [?|?]; apply in_app_iff; [by left|].
    right. by right. }
  assert (operationDefinitions ix
          = flat_map (λ n, List.filter is_operation n.2) pre
              ++ List.filter is_operation doc
              ++ flat_map (λ n, List.filter is_operation n.2) post) as Hops.
  { unfold ix. by rewrite operations_of_merge, Hnodes, flat_map_app. }
  assert (List.filter (duplicate_root_of f) (global_errors ix) = []) as Hglobal.
  { unfold global_errors.
    induction (validate_main (globalDoc ix)) as [|e l IH]; [done|]. apply IH. }
  unfold write, write_run in Hw. rewrite merge_files_all_valid in Hw by done.
  fold ix in Hw. apply bind_Returns in Hw as (final & Hrun & [= <- <-]).
  rewrite Hops, compile_operations_app in Hrun.
  apply bind_Returns in Hrun as (runA & HA & Hrun).
  rewrite compile_operations_app in Hrun.
  apply bind_Returns in Hrun as (runB & Hdoc & HB).
  apply (compile_operations_other_files _ _ _ _ _ f) in HA as [HgetA HerrA].
  2:{ apply Hparts. intros n Hn. apply in_app_iff. by left. }
  cbn [compiledNodes errors JSMap.get] in HgetA, HerrA.
  rewrite Hglobal in HerrA.
  apply (compile_operations_other_files _ _ _ _ _ f) in HB as [HgetB HerrB].
  2:{ apply Hparts. intros n Hn. apply in_app_iff. by right. }
  rewrite HgetB, HerrB.
  pose proof (Hlookup f doc) as Hmine.
  destruct (List.filter is_operation doc) as [|op1 rest].
  { injection Hdoc as <-. done. }
  cbn [compile_operations] in Hdoc.
  apply bind_Returns in Hdoc as (run1 & H1 & Hrest).
  destruct (Hmine op1 Hin (or_introl eq_refl)) as [Hpath1 Hdef1].
  apply compile_operation_Returns in H1. rewrite Hpath1 in H1.
  cbn [from_option id] in H1.
  destruct H1 as [(other & Hsome & _)|(_ & u & e & defs & d & Hres & _ & Hd & ->)];
    [congruence|].
  rewrite Hdef1 in Hd. injection Hd as <-.
  apply resolve_errors in Hres as (added & -> & Hadded).
  apply (compile_operations_same_file _ _ f
           (make_query (Def.name op1) f (defs ++ [op1]) op1) op1)
    in Hrest as (-> & -> & _).
  - cbn [compiledNodes errors]. split.
    + exists defs. rewrite JSMap_get_app, HgetA. cbn [JSMap.get].
      by rewrite String.eqb_refl.
    + rewrite List.filter_app, (filter_undefined_fragments f f _ added Hadded).
      rewrite HerrA. cbn [app].
      clear. induction rest as [|op rest IH]; [done|].
      cbn. rewrite String.eqb_refl. by rewrite IH.
  - intros op Hop. apply (Hmine op Hin). by right.
  - cbn [compiledNodes]. rewrite JSMap_get_app, HgetA. cbn [JSMap.get].
    by rewrite String.eqb_refl.
  - done.
Qed.

Lemma first_operation_of_a_file_is_compiled_witness :
  ∃ compiled errs,
    write (H := Sample.externals) 1 Roots.batch = Returns (compiled, errs)
    ∧ (∃ defs,
         JSMap.get Inputs.site_a compiled
         = Some (make_query (H := Sample.externals) "Q1" Inputs.site_a
                   (defs ++ [Inputs.Q1]) Inputs.Q1))
    ∧ List.filter (duplicate_root_of Inputs.site_a) errs
      = map (λ op, MultipleRootQueriesError Inputs.site_a
                     (Some op) (Some Inputs.Q1))
          [Inputs.Q2; Inputs.Q_plain].
Proof.
  eexists _, _. split; [vm_compute; reflexivity|].
  apply (first_operation_of_a_file_is_compiled (H := Sample.externals)
           1 Roots.batch _ _ Inputs.site_a
           [Inputs.Q1; Inputs.Q2; Inputs.Q_plain]).
  - repeat constructor.
  - apply NoDup_cons. split; [|apply NoDup_singleton].
    intros Hin%list_elem_of_In. destruct Hin as [[=]|[]].
  - intros p q Hp Hq Hkind Hname.
    cbn in Hp, Hq.
    repeat (destruct Hp as [<-|Hp]; [|]); try destruct Hp;
      try discriminate Hkind;
      repeat (destruct Hq as [<-|Hq]; [|]); try destruct Hq;
      (reflexivity || discriminate Hname).
  - vm_compute. reflexivity.
  - right. left. reflexivity.
Defined.

(** * Further properties *)

(** ** The edit distance and the suggestion *)

Lemma between_seq j n : between 0 j (seq j n).
Proof.
  revert j. induction n as [|n IH]; intros j; simpl; [done|].
  split; [lia|apply IH].
Qed.

Lemma row_between c str2 :
  ∀ i j prevJ prevRest nextCol,
    List.length prevRest = List.length str2 →
    (i - j ≤ prevJ ∧ j - i ≤ prevJ ∧ prevJ ≤ Nat.max i j) →
    between i (S j) prevRest →
    (S i - j ≤ nextCol ∧ j - S i ≤ nextCol ∧ nextCol ≤ Nat.max (S i) j) →
    between (S i) j (levenshtein.row c str2 prevJ prevRest nextCol).1
    ∧ List.length (levenshtein.row c str2 prevJ prevRest nextCol).1
      = S (List.length str2)
    ∧ (let last := (levenshtein.row c str2 prevJ prevRest nextCol).2 in
       let n := j + List.length str2 in
       S i - n ≤ last ∧ n - S i ≤ last ∧ last ≤ Nat.max (S i) n).
Proof.
  induction str2 as [|c2 str2 IH];
    intros i j prevJ prevRest nextCol Hlen HprevJ Hrest Hnext.
  - destruct prevRest; [|done]. simpl. rewrite Nat.add_0_r.
    repeat split; lia.
  - destruct prevRest as [|prevJ1 prevRest]; [done|].
    simpl in Hlen, Hrest. destruct Hrest as [HprevJ1 Hrest].
    cbn [levenshtein.row].
    set (next := Nat.min (Nat.min (prevJ + _) (nextCol + 1)) (prevJ1 + 1)).
    destruct (IH i (S j) prevJ1 prevRest next) as (Hr & Hl & Hlast);
      [lia|done|done| |].
    { unfold next. destruct (Ascii.eqb c c2); lia. }
    destruct (levenshtein.row c str2 prevJ1 prevRest next) as [r last].
    simpl in *. repeat split; try done; try lia.
Qed.

Lemma rows_between str1 :
  ∀ i str2 prevRow nextCol,
    List.length prevRow = S (List.length str2) →
    between i 0 prevRow →
    (let n := List.length str2 in
     i - n ≤ nextCol ∧ n - i ≤ nextCol ∧ nextCol ≤ Nat.max i n) →
    let m := i + List.length str1 in
    let n := List.length str2 in
    let d := levenshtein.rows str1 i str2 prevRow nextCol in
    m - n ≤ d ∧ n - m ≤ d ∧ d ≤ Nat.max m n.
Proof.
  induction str1 as [|c str1 IH]; intros i str2 prevRow nextCol Hlen Hrow Hnext.
  - simpl. by rewrite Nat.add_0_r.
  - destruct prevRow as [|p0 prest]; [done|].
    simpl in Hlen, Hrow. destruct Hrow as [Hp0 Hrest].
    cbn [levenshtein.rows]. rewrite Nat.add_1_r.
    destruct (row_between c str2 i 0 p0 prest (S i)) as (Hr & Hl & Hlast);
      [lia|done|done|lia|].
    destruct (levenshtein.row c str2 p0 prest (S i)) as [r last].
    simpl in Hr, Hl, Hlast.
    specialize (IH (S i) str2 r last Hl Hr Hlast). simpl in IH.
    simpl. rewrite Nat.add_succ_r. exact IH.
Qed.

Lemma length_list_ascii_of_string s :
  List.length (list_ascii_of_string s) = String.length s.
Proof. induction s as [|c s IH]; simpl; [done|]. by rewrite IH. Qed.

(** The distance lies between the difference of the two lengths and the
    greater of them. *)
Lemma levenshtein_bounds str1 str2 :
  let m := String.length str1 in
  let n := String.length str2 in
  let d := levenshtein.get str1 str2 in
  m - n ≤ d ∧ n - m ≤ d ∧ d ≤ Nat.max m n.
Proof.
  simpl. unfold levenshtein.get.
  rewrite <- !length_list_ascii_of_string.
  destruct (list_ascii_of_string str1) as [|c s1] eqn:H1; [simpl; lia|].
  destruct (list_ascii_of_string str2) as [|c2 s2] eqn:H2; [simpl; lia|].
  pose proof (rows_between (c :: s1) 0 (c2 :: s2)
                (seq 0 (S (List.length (c2 :: s2))))) as Hrows.
  cbn [levenshtein.rows seq] in Hrows |- *.
  set (n := List.length (c2 :: s2)) in *.
  destruct (row_between c (c2 :: s2) 0 0 0 (seq 1 n) 1) as (Hr & Hl & Hlast);
    [by rewrite length_seq|lia|apply between_seq|lia|].
  fold n in Hl, Hlast.
  destruct (levenshtein.row c (c2 :: s2) 0 (seq 1 n) (0 + 1)) as [r last] eqn:Hrow.
  change (0 + 1) with 1 in Hrow. rewrite Hrow in Hr, Hl, Hlast.
  simpl in Hr, Hl, Hlast.
  pose proof (rows_between s1 1 (c2 :: s2) r last Hl Hr Hlast) as Hfinal.
  simpl in Hfinal. fold n in Hfinal. simpl. lia.
Qed.

(** X19.  Whatever a spread is called, when its name and some registered
    fragment name both have fewer than ten characters, a suggestion is
    made. *)
Theorem short_names_always_get_a_suggestion
    (fragmentNames : list string) (name f : string) :
  In f fragmentNames →
  String.length f < 10 →
  String.length name < 10 →
  ∃ g, closestFragment fragmentNames name = Some g.
Proof.
  intros Hf Hlf Hln.
  destruct (closestFragment fragmentNames name) as [g|] eqn:Hc; [by eexists|].
  rewrite closestFragment_None in Hc. specialize (Hc f Hf).
  pose proof (levenshtein_bounds name f) as Hb. simpl in Hb. lia.
Qed.

Lemma short_names_always_get_a_suggestion_witness :
  ∃ g, closestFragment ["Author"; "SiteMeta"] "ImageXyz" = Some g.
Proof.
  apply (short_names_always_get_a_suggestion
           ["Author"; "SiteMeta"] "ImageXyz" "Author").
  - by left.
  - vm_compute. lia.
  - vm_compute. lia.
Defined.

(** X20.  The length of a suggested name differs from the length of the
    misspelt one by less than ten. *)
Theorem suggestion_has_a_similar_length
    (fragmentNames : list string) (name f : string) :
  closestFragment fragmentNames name = Some f →
  String.length f < String.length name + 10
  ∧ String.length name < String.length f + 10.
Proof.
  intros [_ Hnear]%closestFragment_near.
  pose proof (levenshtein_bounds name f) as Hb. simpl in Hb. lia.
Qed.

Lemma suggestion_has_a_similar_length_witness :
  String.length "PostFields" < String.length "UserField" + 10
  ∧ String.length "UserField" < String.length "PostFields" + 10.
Proof.
  apply (suggestion_has_a_similar_length
           ["PostFields"; "UserFields"] "UserField" "PostFields").
  vm_compute. reflexivity.
Defined.

(** X21.  The suggestion is the first registered name, in the order of
    registration, whose distance to the misspelt name is below ten -
    whatever the distances of the names registered after it. *)
Theorem suggestion_is_first_name_within_ten
    (fragmentNames : list string) (name f : string) :
  closestFragment fragmentNames name = Some f
  ↔ ∃ before after,
      fragmentNames = before ++ f :: after
      ∧ levenshtein.get name f < 10
      ∧ ∀ g, In g before → 10 ≤ levenshtein.get name g.
Proof.
  rewrite closestFragment_first_near.
  induction fragmentNames as [|g l IH]; simpl.
  { split; [done|]. by intros ([|??] & ? & ? & _). }
  destruct (Nat.ltb_spec (levenshtein.get name g) 10) as [Hlt|Hge]; simpl.
  - split.
    + intros [= ->]. by exists [], l.
    + intros ([|g' before] & after & Heq & Hnear & Hfar).
      * by injection Heq as ->.
      * injection Heq as <- _. specialize (Hfar g (or_introl eq_refl)). lia.
  - rewrite IH. split.
    + intros (before & after & -> & Hnear & Hfar).
      exists (g :: before), after. split; [done|]. split; [done|].
      by intros g' [<-|?]; [|apply Hfar].
    + intros ([|g' before] & after & Heq & Hnear & Hfar).
      * injection Heq as ->. lia.
      * injection Heq as <- ->. exists before, after.
        split; [done|]. split; [done|]. intros ??. apply Hfar. by right.
Qed.

(** ** Exact duplicates, in one file or in two *)

Section exact_pairs.
Context `{Externals}.



End exact_pairs.




(** ** The first operation filed under a path *)

Section resolve_reports.
Context `{Externals}.
Variable ix : Indices.
Variable cache : gmap string (list string).
Variable filePath : string.

(** Every unknown spread of a definition that comes on the stack is
    reported by the time the loop ends. *)
Lemma resolve_reports fuel stack used errs used' errs' d d' s :
  resolve ix cache filePath fuel stack used errs = Returns (used', errs') →
  In d stack →
  rtc (pushes ix cache) d d' →
  In s (spreads d') →
  cache !! s = None →
  JSMap.get s (fragmentMap ix) = None →
  In (Error85908 filePath s (closestFragment (fragmentNames ix) s)) errs'.
Proof.
  intros Hres Hd Hreach Hs Hcache Hreg.
  revert stack used errs d Hres Hd Hreach.
  induction fuel as [|fuel IH]; intros stack used errs d Hres Hd Hreach.
  { destruct stack; [destruct Hd|discriminate]. }
  destruct stack as [|top stack]; [destruct Hd|].
  rewrite resolve_step in Hres. destruct Hd as [->|Hd].
  - apply rtc_inv in Hreach as [->|(d1 & Hstep & Hd1)].
    + apply resolve_errors in Hres as (added & -> & _).
      apply in_app_iff. left. apply in_app_iff. right.
      apply in_flat_map. exists s. split; [done|].
      unfold reported_by. rewrite Hcache, Hreg. by left.
    + apply (IH _ _ _ d1 Hres); [|done].
      apply in_app_iff. left. by apply in_rev in Hstep.
  - apply (IH _ _ _ d Hres); [|done]. apply in_app_iff. by right.
Qed.
End resolve_reports.

Section first_under_path.
Context `{Externals}.

Lemma compile_operation_other_path fuel ix run op run' f :
  default "" (namePathMap ix !! Def.name op) ≠ f →
  compile_operation fuel ix run op = Returns run' →
  JSMap.get f (compiledNodes run') = JSMap.get f (compiledNodes run).
Proof.
  intros Hne Hc. apply compile_operation_Returns in Hc.
  destruct Hc as [(other & _ & ->)|(_ & u & e & defs & d & _ & _ & _ & ->)];
    cbn [compiledNodes add_error]; [done|].
  rewrite JSMap_get_app. destruct (JSMap.get f (compiledNodes run)); [done|].
  cbn [JSMap.get].
  by destruct (String.eqb_spec f
                 (default "" (namePathMap ix !! Def.name op))) as [->|_].
Qed.

Lemma compile_operations_other_paths fuel ix run ops run' f :
  (∀ op, In op ops → default "" (namePathMap ix !! Def.name op) ≠ f) →
  compile_operations fuel ix run ops = Returns run' →
  JSMap.get f (compiledNodes run') = JSMap.get f (compiledNodes run).
Proof.
  intros Hops.
  apply (compile_operations_invariant
    (λ r, JSMap.get f (compiledNodes r) = JSMap.get f (compiledNodes run)));
    [|done].
  intros r op r' Hin Hr Hc.
  by rewrite (compile_operation_other_path _ _ _ _ _ _ (Hops op Hin) Hc).
Qed.

(** A query that was filed stays as it is, and so does every
    diagnostic. *)
Lemma compile_operation_keeps fuel ix run op run' :
  compile_operation fuel ix run op = Returns run' →
  (∀ f q, JSMap.get f (compiledNodes run) = Some q →
          JSMap.get f (compiledNodes run') = Some q)
  ∧ (∀ e, In e (errors run) → In e (errors run')).
Proof.
  intros Hc. apply compile_operation_Returns in Hc.
  destruct Hc as [(other & _ & ->)|(_ & u & e & defs & d & Hres & _ & _ & ->)];
    cbn [compiledNodes errors add_error].
  - split; [done|]. intros e He. apply in_app_iff. by left.
  - split.
    + intros f q Hq. by rewrite JSMap_get_app, Hq.
    + apply resolve_errors in Hres as (added & -> & _).
      intros e' He. apply in_app_iff. by left.
Qed.

Lemma compile_operations_keep fuel ix run ops run' :
  compile_operations fuel ix run ops = Returns run' →
  (∀ f q, JSMap.get f (compiledNodes run) = Some q →
          JSMap.get f (compiledNodes run') = Some q)
  ∧ (∀ e, In e (errors run) → In e (errors run')).
Proof.
  apply (compile_operations_invariant
    (λ r, (∀ f q, JSMap.get f (compiledNodes run) = Some q →
                  JSMap.get f (compiledNodes r) = Some q)
          ∧ (∀ e, In e (errors run) → In e (errors r)))); [|done].
  intros r op r' _ [Hq He] [Hq' He']%compile_operation_keeps. split; auto.
Qed.


(** The first operation of the list that is filed under a path is
    compiled, and its query is the one returned for that path. *)
Lemma first_under_path_compiled nodes rank before operation after :
  let ix := merge_all no_indices nodes in
  let filePath := default "" (namePathMap ix !! Def.name operation) in
  all_valid nodes →
  acyclic ix ∅ rank →
  operationDefinitions ix = before ++ operation :: after →
  (∀ op, In op before →
         default "" (namePathMap ix !! Def.name op) ≠ filePath) →
  ∃ fuel, ∀ fuel', fuel ≤ fuel' →
    ∃ runA run1 final used defs d,
      write fuel' nodes = Returns (compiledNodes final, errors final)
      ∧ resolve ix ∅ filePath fuel' [operation] [] (errors runA)
          = Returns (used, errors run1)
      ∧ fragment_defs (fragmentMap ix) used = Returns defs
      ∧ nameDefMap ix !! Def.name operation = Some d
      ∧ compiledNodes run1
          = compiledNodes runA
              ++ [(filePath,
                   make_query (Def.name operation) filePath
                     (defs ++ [operation]) d)]
      ∧ JSMap.get filePath (compiledNodes runA) = None
      ∧ compile_operations fuel' ix run1 after = Returns final.
Proof.
  intros ix filePath Hvalid Hrank Hops Hbefore.
  destruct (compile_operations_returns ix rank (operationDefinitions ix) Hrank)
    as [fuel Hfuel].
  { intros op Hop. by apply operations_are_indexed. }
  exists fuel. intros fuel' Hle.
  set (run0 := {| compiledNodes := []; errors := global_errors ix;
                  usedFragmentsForFragment := ∅ |}).
  destruct (Hfuel fuel' run0 Hle eq_refl) as [final Hfinal].
  pose proof Hfinal as Hrun. rewrite Hops, compile_operations_app in Hrun.
  apply bind_Returns in Hrun as (runA & HA & Hrun).
  cbn [compile_operations] in Hrun.
  apply bind_Returns in Hrun as (run1 & H1 & Hafter).
  pose proof (compile_operations_other_paths _ _ _ _ _ _ Hbefore HA) as HgetA.
  cbn [run0 compiledNodes JSMap.get] in HgetA.
  pose proof (compile_operations_cache _ _ _ _ _ HA) as Hcache.
  cbn [run0 usedFragmentsForFragment] in Hcache.
  apply compile_operation_Returns in H1. fold ix filePath in H1.
  cbn zeta in H1. fold filePath in H1.
  destruct H1 as [(other & Hsome & _)|(_ & used & e & defs & d & Hres & Hdefs & Hd & ->)];
    [congruence|].
  rewrite Hcache in Hres.
  match type of Hafter with
  | compile_operations _ _ ?r _ = _ => exists runA, r, final, used, defs, d
  end.
  split_and!; try done.
  unfold write, write_run. rewrite merge_files_all_valid by done.
  fold ix run0. by rewrite Hfinal.
Qed.
End first_under_path.

(** C9, as the code has it.  Take an operation that is the first of the
    list filed under its path, so that it is not skipped as a second
    root, in a batch that passes the structural rules and in which no
    registered fragment spreads itself, directly or through others, so
    that the loop ends.  If the operation, or a registered fragment it
    reaches, spreads a name that is not registered, [write] returns with
    the diagnostic 85908 for that name, and the returned map holds under
    the operation's path the query of the operation: its name and path,
    the original text, hash and flags indexed for its name, and the
    printed document of the operation after registered fragments, none
    of which bears the unknown name. *)
Theorem undefined_fragment_still_compiled `{Externals}
    (nodes : list (string * list Def.t)) (rank : string → nat)
    (before : list Def.t) (operation : Def.t) (after : list Def.t)
    (d' : Def.t) (name : string) :
  let ix := merge_all no_indices nodes in
  let filePath := default "" (namePathMap ix !! Def.name operation) in
  all_valid nodes →
  acyclic ix ∅ rank →
  operationDefinitions ix = before ++ operation :: after →
  (∀ op, In op before →
         default "" (namePathMap ix !! Def.name op) ≠ filePath) →
  rtc (pushes ix ∅) operation d' →
  In name (spreads d') →
  JSMap.get name (fragmentMap ix) = None →
  ∃ fuel, ∀ fuel', fuel ≤ fuel' →
    ∃ compiled errs q defs d,
      write fuel' nodes = Returns (compiled, errs)
      ∧ In (Error85908 filePath name
              (closestFragment (fragmentNames ix) name)) errs
      ∧ JSMap.get filePath compiled = Some q
      ∧ nameDefMap ix !! Def.name operation = Some d
      ∧ Query.name q = Def.name operation
      ∧ Query.path q = filePath
      ∧ Query.text q = print_document (defs ++ [operation])
      ∧ Query.originalText q = Def.text d
      ∧ Query.hash q = Def.hash d
      ∧ Query.isHook q = Def.isHook d
      ∧ Query.isStaticQuery q = Def.isStaticQuery d
      ∧ (∀ x, In x defs →
              JSMap.get (Def.name x) (fragmentMap ix)
                = Some (Entry.mk x (print x)))
      ∧ ¬ In name (map Def.name defs).
Proof.
  intros ix filePath Hvalid Hrank Hops Hbefore Hreach Hspread Hreg.
  destruct (first_under_path_compiled nodes rank before operation after
              Hvalid Hrank Hops Hbefore) as [fuel Hfuel].
  exists fuel. intros fuel' Hle.
  destruct (Hfuel fuel' Hle)
    as (runA & run1 & final & used & defs & d
        & Hw & Hres & Hdefs & Hd & Hnodes & HgetA & Hafter).
  fold ix filePath in Hres, Hdefs, Hd, Hnodes, HgetA, Hafter.
  destruct (compile_operations_keep _ _ _ _ _ Hafter) as [Hkeep Herrs].
  assert (registry_ok (fragmentMap ix)) as Hok.
  { apply merge_all_registry. split; constructor. }
  assert (∀ x, In x defs →
               JSMap.get (Def.name x) (fragmentMap ix)
                 = Some (Entry.mk x (print x))) as Hentries.
  { apply fragment_defs_exact in Hdefs. clear -Hdefs Hok.
    induction Hdefs as [|n x used defs (en & Hn & ->) _ IH];
      [by intros ? []|].
    destruct (registry_ok_get _ _ _ Hok Hn) as (Hname & _ & Heq).
    intros x [<-|Hx]; [|by apply IH]. by rewrite Hname, Hn, Heq at 1. }
  exists (compiledNodes final), (errors final),
    (make_query (Def.name operation) filePath (defs ++ [operation]) d),
    defs, d.
  split_and!; try done.
  - apply Herrs.
    by apply (resolve_reports ix ∅ filePath fuel' [operation] [] (errors runA)
                used (errors run1) operation d' name Hres (or_introl eq_refl)).
  - apply Hkeep. rewrite Hnodes, JSMap_get_app, HgetA. cbn [JSMap.get].
    by rewrite String.eqb_refl.
  - intros (x & Hname & Hx)%in_map_iff. apply Hentries in Hx.
    rewrite Hname in Hx. congruence.
Qed.

Lemma undefined_fragment_still_compiled_witness :
  ∃ fuel, ∀ fuel', fuel ≤ fuel' →
    ∃ compiled errs q defs d,
      write (H := Sample.externals) fuel' Inputs.mixed_batch
        = Returns (compiled, errs)
      ∧ In (Error85908 Inputs.site_a "Missing"
              (closestFragment ["A"; "B"] "Missing")) errs
      ∧ JSMap.get Inputs.site_a compiled = Some q
      ∧ nameDefMap
          (merge_all (H := Sample.externals) no_indices Inputs.mixed_batch)
          !! "Mixed" = Some d
      ∧ Query.name q = "Mixed"
      ∧ Query.path q = Inputs.site_a
      ∧ Query.text q
        = print_document (H := Sample.externals) (defs ++ [Inputs.Q_mixed])
      ∧ Query.originalText q = Def.text d
      ∧ Query.hash q = Def.hash d
      ∧ Query.isHook q = Def.isHook d
      ∧ Query.isStaticQuery q = Def.isStaticQuery d
      ∧ (∀ x, In x defs →
              JSMap.get (Def.name x)
                (fragmentMap
                   (merge_all (H := Sample.externals) no_indices
                      Inputs.mixed_batch))
                = Some (Entry.mk x (print (Externals := Sample.externals) x)))
      ∧ ¬ In "Missing" (map Def.name defs).
Proof.
  apply (undefined_fragment_still_compiled (H := Sample.externals)
           Inputs.mixed_batch Inputs.rank_B_above_A [] Inputs.Q_mixed []
           Inputs.Q_mixed "Missing").
  - repeat constructor.
  - intros n entry s Hn Hs _ _.
    change (fragmentMap
              (merge_all (H := Sample.externals) no_indices
                 Inputs.mixed_batch))
      with [("A", Entry.mk Inputs.A "fragment A { a }");
            ("B", Entry.mk Inputs.B "fragment B { b ...A }")] in Hn.
    cbn [JSMap.get] in Hn.
    destruct (String.eqb_spec n "A") as [->|_].
    { injection Hn as <-. destruct Hs. }
    destruct (String.eqb_spec n "B") as [->|_]; [|discriminate].
    injection Hn as <-. destruct Hs as [<-|[]]. vm_compute. lia.
  - vm_compute. reflexivity.
  - intros op [].
  - apply rtc_refl.
  - vm_compute. right. by left.
  - vm_compute. reflexivity.
Defined.

(** C9, as stated, fails in two ways.  A second root: [Q2] spreads the
    unregistered [Missing], yet no diagnostic 85908 is reported and the
    query of its file is that of [Q1].  And an operation that also
    reaches a cycle of fragments: the loop never ends, so nothing is
    returned at all. *)
Lemma undefined_fragment_neither_reported_nor_compiled :
  (In "Missing" (spreads Inputs.Q2)
   ∧ JSMap.get "Missing"
       (fragmentMap
          (merge_all (H := Sample.externals) no_indices
             Inputs.two_roots_batch)) = None
   ∧ ∃ q,
       write (H := Sample.externals) 1 Inputs.two_roots_batch
         = Returns
             ([(Inputs.site_a, q)],
              [MultipleRootQueriesError Inputs.site_a
                 (Some Inputs.Q2) (Some Inputs.Q1)])
       ∧ Query.name q = "Q1")
  ∧ (In "Missing" (spreads Cycle.Q_lost)
     ∧ JSMap.get "Missing"
         (fragmentMap
            (merge_all (H := Sample.externals) no_indices
               Cycle.lost_batch)) = None
     ∧ ∀ fuel,
         write (H := Sample.externals) fuel Cycle.lost_batch = Unfinished).
Proof.
  split.
  - split; [vm_compute; by left|]. split; [reflexivity|].
    eexists. split; [vm_compute; reflexivity|reflexivity].
  - split; [vm_compute; by left|]. split; [reflexivity|].
    intros fuel. unfold write, write_run.
    rewrite merge_files_all_valid by repeat constructor.
    replace (operationDefinitions
               (merge_all (H := Sample.externals) no_indices
                  Cycle.lost_batch))
      with [Cycle.Q_lost] by (vm_compute; reflexivity).
    cbn [compile_operations]. unfold compile_operation.
    cbn [compiledNodes JSMap.get usedFragmentsForFragment].
    rewrite (resolve_cycle _ ∅ _ fuel [Cycle.Q_lost] [] _
               Cycle.Q_lost Cycle.Ping); [done|by left| |].
    + apply rtc_once. vm_compute. by left.
    + apply (tc_l _ _ Cycle.Pong).
      * vm_compute. by left.
      * apply tc_once. vm_compute. by left.
Qed.

(** ** The last definition of a name that is indexed *)

Lemma tagged_app nodes1 nodes2 :
  tagged (nodes1 ++ nodes2) = tagged nodes1 ++ tagged nodes2.
Proof. apply flat_map_app. Qed.



Section last_kept.
Context `{Externals}.



End last_kept.




(** ** Definitions without name *)

Lemma name_values_cases doc :
  (Forall (λ d, is_Some (Node.name d)) doc
   ∧ ∃ defs, name_values doc = Returns defs)
  ∨ (Exists (λ d, Node.name d = None) doc ∧ name_values doc = Throws).
Proof.
  induction doc as [|n doc IH].
  { left. split; [constructor|by eexists]. }
  cbn [name_values]. unfold name_value.
  destruct (Node.name n) as [name|] eqn:Hn; cbn [bind].
  - destruct IH as [[Hall [defs ->]]|[Hex ->]]; cbn [bind].
    + left. split; [|by eexists]. constructor; [by rewrite Hn|done].
    + right. split; [by apply Exists_cons_tl|done].
  - right. split; [by apply Exists_cons_hd|done].
Qed.

Lemma name_values_node_of doc : name_values (map node_of doc) = Returns doc.
Proof.
  induction doc as [|d doc IH]; [done|].
  cbn [map name_values]. rewrite IH. by destruct d.
Qed.

Section nameless.
Context `{Externals}.
Variable validate_nodes : list Node.t → list string.

Lemma reaches_nameless_cons filePath doc rest :
  validate_nodes doc = [] →
  Forall (λ d, is_Some (Node.name d)) doc →
  reaches_nameless validate_nodes ((filePath, doc) :: rest)
  ↔ reaches_nameless validate_nodes rest.
Proof.
  intros Hvalid Hnamed. split.
  - intros ([|p pre] & f & doc' & post & Heq & Hpre & Hdoc & Hex).
    + injection Heq as <- <- <-. exfalso.
      apply List.Exists_exists in Hex as (d & Hd & Hnone).
      rewrite List.Forall_forall in Hnamed. apply Hnamed in Hd.
      rewrite Hnone in Hd. by destruct Hd.
    + injection Heq as <- ->. exists pre, f, doc', post.
      split; [done|]. split; [by inversion Hpre|done].
  - intros (pre & f & doc' & post & -> & Hpre & Hdoc & Hex).
    exists ((filePath, doc) :: pre), f, doc', post.
    split; [done|]. split; [|done]. by constructor.
Qed.

Lemma merge_nodes_outcome ix nodes :
  (merge_nodes validate_nodes ix nodes = Throws
   ∧ reaches_nameless validate_nodes nodes)
  ∨ (¬ reaches_nameless validate_nodes nodes
     ∧ ((∃ ix' reported,
           merge_nodes validate_nodes ix nodes
             = Returns (Abandoned ix' reported))
        ∨ ∃ named,
            merge_nodes validate_nodes ix nodes
              = Returns (Merged (merge_all ix named)))).
Proof.
  revert ix. induction nodes as [|[f doc] nodes IH]; intros ix.
  { right. split; [by intros ([|??] & ? & ? & ? & ? & _)|].
    right. by exists []. }
  cbn [merge_nodes]. destruct (validate_nodes doc) as [|m msgs] eqn:Hdoc.
  - destruct (name_values_cases doc) as [[Hnamed [defs ->]]|[Hex ->]];
      cbn [bind].
    + destruct (IH (merge_file ix f defs))
        as [[-> Hthrows]|[Hnot [(ix' & reported & ->)|[named ->]]]].
      * left. split; [done|]. by apply reaches_nameless_cons.
      * right. split; [by rewrite reaches_nameless_cons|]. left. by eexists _, _.
      * right. split; [by rewrite reaches_nameless_cons|]. right.
        by exists ((f, defs) :: named).
    + left. split; [done|]. by exists [], f, doc, nodes.
  - right. split.
    + intros ([|p pre] & f' & doc' & post & Heq & Hpre & Hdoc' & _).
      * injection Heq as <- <- <-. congruence.
      * injection Heq as <- ->. inversion Hpre as [|? ? [Hv _] _]; subst.
        cbn [snd] in Hv. congruence.
    + left. by eexists _, _.
Qed.

(** With every definition named and the same structural rules, [write]
    on nodes is [write]. *)
Lemma write_nodes_named fuel nodes :
  (∀ doc, validate_nodes (map node_of doc) = validate_pre doc) →
  write_nodes validate_nodes fuel (nodes_of nodes) = write fuel nodes.
Proof.
  intros Hsame. unfold write_nodes, write, write_run.
  assert (∀ ix, merge_nodes validate_nodes ix (nodes_of nodes)
                = Returns (merge_files ix nodes)) as ->.
  { induction nodes as [|[f doc] nodes IH]; intros ix; [done|].
    cbn [nodes_of map merge_nodes merge_files fst snd].
    rewrite Hsame. destruct (validate_pre doc); [|done].
    rewrite name_values_node_of. cbn [bind]. apply IH. }
  cbn [bind]. by destruct (merge_files no_indices nodes).
Qed.
End nameless.

(** X1.  [write] reads a property of [undefined] exactly when it reaches
    a file that passes the structural rules and holds a definition
    without name, such as a lone anonymous operation: every file before
    it passed the rules with all its definitions named.  In every other
    case the reads [fragmentMap.get (name).def] and
    [nameDefMap.get (name)] of the loop over the operations are
    defined. *)
Theorem write_throws_on_nameless_definition `{Externals}
    (validate_nodes : list Node.t → list string) (fuel : nat)
    (nodes : list (string * list Node.t)) :
  write_nodes validate_nodes fuel nodes = Throws
  ↔ reaches_nameless validate_nodes nodes.
Proof.
  unfold write_nodes.
  destruct (merge_nodes_outcome validate_nodes no_indices nodes)
    as [[-> Hthrows]|[Hnot [(ix' & reported & ->)|[named ->]]]];
    cbn [bind]; [done|done|].
  split; [|done]. intros Hw. exfalso.
  destruct (compile_operations fuel (merge_all no_indices named) _ _)
    as [run| |] eqn:Hloop; [done|done|].
  apply compile_operations_not_Throws in Hloop; [done|done|].
  intros op Hop. by apply operations_are_indexed.
Qed.

Lemma write_throws_on_nameless_definition_witness :
  write_nodes (H := Sample.externals) Anonymous.accept 1 Anonymous.batch
  = Throws.
Proof.
  apply (write_throws_on_nameless_definition (H := Sample.externals)
           Anonymous.accept 1 Anonymous.batch).
  exists [(Inputs.site_a, map node_of [Inputs.Q_plain])], Inputs.site_b,
    [Anonymous.lone], [].
  split; [reflexivity|]. split; [|split; [reflexivity|]].
  - constructor; [|constructor]. split; [reflexivity|].
    constructor; [by eexists|constructor].
  - apply Exists_cons_hd. reflexivity.
Defined.
